(** * final.py: camera arbitration, power monitor, capture pipeline, blink signal

    A shallow embedding of the coordination code of [final.py]: the global
    state the threads share, the body of every function the properties below
    speak about, and the interleavings of the threads that compete for
    [camera_lock] and [blink_lock].

    Conventions.
    - [time.time()] yields a float; clock readings are rationals here, and
      [duration] is their exact difference, where the code has the float
      difference; [shutdown_condition] and [idle_condition] are the tests
      the code makes on it.
    - A function that acts on hardware, the log or the file system returns the
      list of the effects it performed, in program order, next to the globals
      it leaves behind.
    - A call that can raise has its outcome supplied by the environment; a
      function returns [Returned v] or [Raised e]. *)

From Stdlib Require Import QArith Ascii.
From stdpp Require Import gmap strings list.

Open Scope Q_scope.
Open Scope nat_scope.

(** ** Values shared by all parts *)

Inductive level := INFO | WARNING | ERROR.

Inductive led := Led1 | Led2 | Ledc.

(** An instance of [Exception]; [str(e)] is all the program uses. *)
Inductive exn := Exn (msg : string).

Definition exn_str (e : exn) : string := let 'Exn m := e in m.

Inductive outcome (A : Type) :=
| Returned (a : A)
| Raised (e : exn).
Arguments Returned {A} a.
Arguments Raised {A} e.

(** [datetime.now()]: the fields [strftime] reads, and the microseconds it
    does not. *)
Record datetime := {
  year : nat; month : nat; day : nat;
  hour : nat; minute : nat; second : nat;
  microsecond : nat
}.

(** The bytes of a still written by [camera.capture_file]. *)
Definition image := list nat.

Inductive event :=
| Log (lv : level) (msg : string)
| SleepFor (secs : Q)
| LedOn (l : led)
| LedOff (l : led)
| LedToggle (l : led)
| Poweroff                          (* check_call(['sudo', 'poweroff']) *)
| SetLastPing (d : datetime)        (* client_status['last_ping'] = ... *)
| SetTimer (t : Q)                  (* timer = time.time() *)
| AcquireCamera                     (* camera_lock.__enter__ *)
| ReleaseCamera                     (* camera_lock.__exit__ *)
| AutofocusCycle                    (* camera.autofocus_cycle() *)
| CaptureFile (path : string)       (* camera.capture_file(path) *)
| CaptureArray                      (* camera.capture_array() *)
| StartBlinkThread                  (* threading.Thread(target=blink_led).start() *)
| TryAcquireBlink (got : bool)      (* blink_lock.acquire(blocking=False) *)
| ReleaseBlink.                     (* blink_lock.release() *)

(** ** Global state (lines 24-58) *)

Record world := {
  timer : Q;                          (* timer *)
  last_ping : option datetime;        (* client_status['last_ping'] *)
  status : bool;                      (* client_status['status'] *)
  led1 : bool;                        (* led1.is_active *)
  led2 : bool;                        (* led2.is_active *)
  ledc : bool;                        (* ledc.is_active *)
  camera_locked : bool;               (* camera_lock.locked() *)
  files : gmap string image           (* the image directory *)
}.

Definition set_timer (t : Q) (w : world) : world :=
  {| timer := t; last_ping := last_ping w; status := status w;
     led1 := led1 w; led2 := led2 w; ledc := ledc w;
     camera_locked := camera_locked w; files := files w |}.

Definition set_last_ping (d : datetime) (w : world) : world :=
  {| timer := timer w; last_ping := Some d; status := status w;
     led1 := led1 w; led2 := led2 w; ledc := ledc w;
     camera_locked := camera_locked w; files := files w |}.

Definition set_status (b : bool) (w : world) : world :=
  {| timer := timer w; last_ping := last_ping w; status := b;
     led1 := led1 w; led2 := led2 w; ledc := ledc w;
     camera_locked := camera_locked w; files := files w |}.

Definition set_led (l : led) (b : bool) (w : world) : world :=
  {| timer := timer w; last_ping := last_ping w; status := status w;
     led1 := (match l with Led1 => b | _ => led1 w end);
     led2 := (match l with Led2 => b | _ => led2 w end);
     ledc := (match l with Ledc => b | _ => ledc w end);
     camera_locked := camera_locked w; files := files w |}.

Definition get_led (l : led) (w : world) : bool :=
  match l with Led1 => led1 w | Led2 => led2 w | Ledc => ledc w end.

Definition set_camera_locked (b : bool) (w : world) : world :=
  {| timer := timer w; last_ping := last_ping w; status := status w;
     led1 := led1 w; led2 := led2 w; ledc := ledc w;
     camera_locked := b; files := files w |}.

Definition write_file (path : string) (img : image) (w : world) : world :=
  {| timer := timer w; last_ping := last_ping w; status := status w;
     led1 := led1 w; led2 := led2 w; ledc := ledc w;
     camera_locked := camera_locked w; files := <[path := img]> (files w) |}.

(** gpiozero: [on], [off], [toggle] on an output device. *)
Definition led_on (l : led) (w : world) : world := set_led l true w.
Definition led_off (l : led) (w : world) : world := set_led l false w.
Definition led_toggle (l : led) (w : world) : world :=
  set_led l (negb (get_led l w)) w.

(** The state after the module has been loaded: both status LEDs on
    (lines 57-58), no ping seen, locks free. *)
Definition initial_world (t0 : Q) : world :=
  {| timer := t0; last_ping := None; status := false;
     led1 := true; led2 := true; ledc := false;
     camera_locked := false; files := ∅ |}.

(** [x > y] on clock readings. *)
Definition py_gt (x y : Q) : bool := negb (Qle_bool x y).

(** ** update_timer (lines 62-66) *)

Definition update_timer (now : Q) (w : world) : list event * world :=
  ([SetTimer now], set_timer now w).

(** ** shutdown_monitor (lines 97-128) *)

(** What one iteration of the loop finds: the clock reading of line 105, the
    globals as the other threads have left them when the iteration takes
    [state_lock], and whether [sudo poweroff] would exit with status 0
    ([check_call] raises [CalledProcessError] otherwise). *)
Record tick_in := {
  current_time : Q;
  seen : world;
  poweroff_exits_0 : bool
}.

Record tick_out := {
  effects : list event;
  after : world;
  (* [Returned f]: the iteration ended with [idle_mode_active = f];
     [Raised e]: [e] left the loop, the thread is over. *)
  ended : outcome bool
}.

Definition T_shutdown : Q := 900%Q.
Definition T_idle : Q := 300%Q.

Definition duration (i : tick_in) : Q := (current_time i - timer (seen i))%Q.

Definition shutdown_condition (i : tick_in) : bool :=
  py_gt (duration i) T_shutdown && negb (status (seen i)).

Definition idle_condition (i : tick_in) : bool :=
  py_gt (duration i) T_idle.

(** Lines 113-116: [for _ in range(n)]: toggle both, sleep 0.2. *)
Fixpoint warning_blink (n : nat) (w : world) : list event * world :=
  match n with
  | O => ([], w)
  | S n' =>
      let w1 := led_toggle Led2 (led_toggle Led1 w) in
      let '(tr, w2) := warning_blink n' w1 in
      ([LedToggle Led1; LedToggle Led2; SleepFor (1 # 5)] ++ tr, w2)
  end.

(** Lines 110-117. *)
Definition shutdown_block (i : tick_in) : list event * world * outcome unit :=
  if shutdown_condition i then
    let '(tr, w1) := warning_blink 5 (seen i) in
    ([Log WARNING "Inactivity shutdown triggered."] ++ tr ++ [Poweroff],
     w1,
     if poweroff_exits_0 i then Returned tt
     else Raised (Exn "Command '['sudo', 'poweroff']' returned non-zero exit status 1."))
  else ([], seen i, Returned tt).

Definition idle_log : event := Log INFO "Entering idle mode: Turning off LEDs.".

(** Lines 123-124: [if led.is_active: led.off()]. *)
Definition off_if_active (l : led) (w : world) : list event * world :=
  if get_led l w then ([LedOff l], led_off l w) else ([], w).

(** Lines 120-128, from the flag and the globals it finds. *)
Definition idle_block (idle_mode_active : bool) (i : tick_in) (w : world)
  : list event * world * bool :=
  if idle_condition i then
    if negb idle_mode_active then
      let '(tr1, w1) := off_if_active Led1 w in
      let '(tr2, w2) := off_if_active Led2 w1 in
      ([idle_log] ++ tr1 ++ tr2, w2, true)
    else ([], w, idle_mode_active)
  else ([], w, false).

(** One iteration of [while True] (lines 103-128). *)
Definition monitor_tick (idle_mode_active : bool) (i : tick_in) : tick_out :=
  let '(tr1, w1, r1) := shutdown_block i in
  match r1 with
  | Raised e =>
      {| effects := [SleepFor 5] ++ tr1; after := w1; ended := Raised e |}
  | Returned _ =>
      let '(tr2, w2, flag) := idle_block idle_mode_active i w1 in
      {| effects := [SleepFor 5] ++ tr1 ++ tr2; after := w2;
         ended := Returned flag |}
  end.

(** The loop over the iterations the process lives to see. The flag is the
    local [idle_mode_active]; an exception ends the loop. *)
Fixpoint monitor_loop (idle_mode_active : bool) (ins : list tick_in)
  : list tick_out :=
  match ins with
  | [] => []
  | i :: rest =>
      let o := monitor_tick idle_mode_active i in
      o :: match ended o with
           | Returned flag => monitor_loop flag rest
           | Raised _ => []
           end
  end.

(** [shutdown_monitor()]: the flag starts out [False] (line 100). *)
Definition shutdown_monitor (ins : list tick_in) : list tick_out :=
  monitor_loop false ins.

Definition is_poweroff (e : event) : bool :=
  match e with Poweroff => true | _ => false end.

Definition is_idle_log (e : event) : bool :=
  match e with
  | Log INFO msg => bool_decide (msg = "Entering idle mode: Turning off LEDs.")
  | _ => false
  end.

(** How often the power-off command is issued, and how often idle mode is
    entered, in a list of effects. *)
Definition poweroffs (tr : list event) : nat :=
  length (List.filter is_poweroff tr).
Definition idle_forcings (tr : list event) : nat :=
  length (List.filter is_idle_log tr).

(** ** capture_image (lines 130-163) *)

Definition IMAGE_DIRECTORY : string := "img/".

Definition digit (n : nat) : ascii := ascii_of_nat (48 + n mod 10).

(** [n] in decimal, the low [width] digits, zero padded: [%m], [%d], [%H],
    [%M], [%S] with width 2 and [%Y] with width 4. *)
Fixpoint zero_padded (width n : nat) : string :=
  match width with
  | O => EmptyString
  | S width' => zero_padded width' (n / 10) +:+ String (digit n) EmptyString
  end.

(** [d.strftime("%Y-%m-%dT%H_%M_%S")]. From the year 1000 on [%Y] prints
    the four digits of the year; how a smaller year is printed is left to
    the C library, which may drop the leading zeros written here. *)
Definition strftime (d : datetime) : string :=
  zero_padded 4 (year d) +:+ "-" +:+ zero_padded 2 (month d) +:+ "-" +:+
  zero_padded 2 (day d) +:+ "T" +:+ zero_padded 2 (hour d) +:+ "_" +:+
  zero_padded 2 (minute d) +:+ "_" +:+ zero_padded 2 (second d).

Definition starts_with_slash (s : string) : bool :=
  match s with
  | String c _ => bool_decide (c = "/"%char)
  | EmptyString => false
  end.

Fixpoint ends_with_slash (s : string) : bool :=
  match s with
  | EmptyString => false
  | String c EmptyString => bool_decide (c = "/"%char)
  | String _ rest => ends_with_slash rest
  end.

(** [os.path.join(a, b)] on POSIX, two components. *)
Definition os_path_join (a b : string) : string :=
  if starts_with_slash b then b
  else if bool_decide (a = EmptyString) || ends_with_slash a then a +:+ b
  else a +:+ "/" +:+ b.

(** Lines 138-140. *)
Definition capture_path (d : datetime) : string :=
  os_path_join IMAGE_DIRECTORY ("RF_pic_" +:+ strftime d +:+ ".jpeg").

(** What the environment hands to one run of [capture_image]: three clock
    readings and the behaviour of the two camera calls. *)
Record capture_env := {
  ping_clock : datetime;          (* datetime.now(), line 133 *)
  timer_clock : Q;                (* time.time() in update_timer, line 135 *)
  name_clock : datetime;          (* datetime.now(), line 138 *)
  autofocus_cycle : outcome bool; (* line 148 *)
  capture_file : outcome image    (* line 155: the bytes written, or raises *)
}.

(** [with camera_lock: body]. [acquire] blocks until the lock is free, so the
    body starts with the lock taken by this thread; [__exit__] releases it
    whether [body] returns or raises. *)
Definition with_camera_lock {A : Type}
  (body : world -> list event * world * outcome A) (w : world)
  : list event * world * outcome A :=
  let '(tr, w1, r) := body (set_camera_locked true w) in
  ([AcquireCamera] ++ tr ++ [ReleaseCamera], set_camera_locked false w1, r).

(** Lines 145-155, the body of the [with]. *)
Definition camera_section (e : capture_env) (path : string) (w : world)
  : list event * world * outcome unit :=
  let tr0 := [Log INFO "Starting autofocus cycle for capture..."; AutofocusCycle] in
  match autofocus_cycle e with
  | Raised x => (tr0, w, Raised x)
  | Returned success =>
      let tr1 :=
        if negb success then [Log WARNING "Autofocus cycle failed or was skipped."]
        else [Log INFO "Autofocus complete."] in
      match capture_file e with
      | Raised x => (tr0 ++ tr1 ++ [CaptureFile path], w, Raised x)
      | Returned img =>
          (tr0 ++ tr1 ++ [CaptureFile path], write_file path img w, Returned tt)
      end
  end.

(** Lines 142-160: [try] and [except Exception as e]. *)
Definition try_capture (e : capture_env) (path : string) (w : world)
  : list event * world :=
  let '(tr, w1, r) := with_camera_lock (camera_section e path) w in
  match r with
  | Returned _ => (tr ++ [Log INFO ("Captured: " +:+ path)], w1)
  | Raised x => (tr ++ [Log ERROR ("Capture failed: " +:+ exn_str x)], w1)
  end.

(** The whole function. It has no [return] statement: it returns [None],
    here [tt], on every path. *)
Definition capture_image (e : capture_env) (w : world)
  : list event * world * outcome unit :=
  let w1 := set_last_ping (ping_clock e) w in
  let '(tr2, w2) := update_timer (timer_clock e) w1 in
  let w3 := led_on Ledc w2 in
  let path := capture_path (name_clock e) in
  let '(tr4, w4) := try_capture e path w3 in
  (* finally *)
  let w5 := led_off Ledc w4 in
  ([SetLastPing (ping_clock e)] ++ tr2 ++ [LedOn Ledc] ++ tr4
     ++ [SleepFor (1 # 2); LedOff Ledc],
   w5, Returned tt).

(** A run in which a camera call raised. *)
Definition capture_raises (e : capture_env) : bool :=
  match autofocus_cycle e, capture_file e with
  | Raised _, _ => true
  | Returned _, Raised _ => true
  | Returned _, Returned _ => false
  end.

(** A run in which one of the steps under the lock is reported as failed:
    the autofocus cycle returns [False] or raises, or the still capture
    raises. *)
Definition step_fails (e : capture_env) : bool :=
  match autofocus_cycle e, capture_file e with
  | Returned true, Returned _ => false
  | _, _ => true
  end.

Definition is_error_log (ev : event) : bool :=
  match ev with Log ERROR _ => true | _ => false end.

Definition errors_logged (tr : list event) : nat :=
  length (List.filter is_error_log tr).

(** ** Flask routes (lines 167-250) *)

Inductive json_value :=
| JBool (b : bool)
| JStr (s : string)
| JNum (n : nat).

Definition json := list (string * json_value).

(** Lines 167-174. [blink()] starts a worker thread and returns. *)
Definition ping (now_ping : datetime) (now_timer : Q) (w : world)
  : list event * world * json :=
  let w1 := set_status true (set_last_ping now_ping w) in
  let '(tr, w2) := update_timer now_timer w1 in
  ([SetLastPing now_ping; StartBlinkThread] ++ tr, w2,
   [("status", JStr "pong"); ("code", JNum 200)]).

(** Lines 176-178. *)
Definition device_status (w : world) : list event * world * json :=
  ([], w, [("online", JBool true)]).

(** Lines 222-232. *)
Definition led1_status_route (w : world) : list event * world * json :=
  ([], w, [("active", JBool (led1 w))]).

Definition led2_status_route (w : world) : list event * world * json :=
  ([], w, [("active", JBool (led2 w))]).

Definition uv_status_route (w : world) : list event * world * json :=
  ([], w, [("UV_A", JBool (led1 w)); ("UV_B", JBool (led2 w))]).

(** Lines 234-244. *)
Definition toggle_led1_route (now : Q) (w : world)
  : list event * world * json :=
  let '(tr, w1) := update_timer now w in
  let w2 := led_toggle Led1 w1 in
  (tr ++ [LedToggle Led1], w2, [("active", JBool (led1 w2))]).

Definition toggle_led2_route (now : Q) (w : world)
  : list event * world * json :=
  let '(tr, w1) := update_timer now w in
  let w2 := led_toggle Led2 w1 in
  (tr ++ [LedToggle Led2], w2, [("active", JBool (led2 w2))]).

(** The passive status reads, as the routing table names them. *)
Inductive status_read :=
| GetDeviceStatus     (* /device_status *)
| GetLed1Status       (* /led1_status *)
| GetLed2Status       (* /led2_status *)
| GetUvStatus.        (* /uv_status *)

Definition serve_status_read (r : status_read) (w : world)
  : list event * world * json :=
  match r with
  | GetDeviceStatus => device_status w
  | GetLed1Status => led1_status_route w
  | GetLed2Status => led2_status_route w
  | GetUvStatus => uv_status_route w
  end.

(** [now - timer], the idle time line 106 would find at clock reading [now]. *)
Definition idle_duration (now : Q) (w : world) : Q := (now - timer w)%Q.

(** ** Threads that share one lock

    A pool of threads around one [threading.Lock]. [step c locked t] is the
    next step of a thread in state [t] when the lock reads [locked] and the
    environment decides [c]: the new lock state, the thread's next state and
    the effects of the step; [None] when the thread cannot move (it waits for
    the lock, or it is over). The journal records who did what, in the order
    in which the steps were taken. *)

Section Pool.
Context {T R C : Type}.
Variable start : R -> T.
Variable step : C -> bool -> T -> option (bool * T * list event).
Variable holding : T -> bool.

Record pool := {
  lock : bool;
  threads : list T;
  journal : list (nat * event)
}.

Inductive action :=
| Spawn (r : R)               (* threading.Thread(...).start() *)
| Run (i : nat) (c : C).      (* thread [i] is scheduled *)

Definition idle_pool : pool :=
  {| lock := false; threads := []; journal := [] |}.

Definition perform (a : action) (s : pool) : pool :=
  match a with
  | Spawn r =>
      {| lock := lock s; threads := threads s ++ [start r];
         journal := journal s |}
  | Run i c =>
      match threads s !! i with
      | None => s
      | Some t =>
          match step c (lock s) t with
          | None => s
          | Some (l', t', evs) =>
              {| lock := l'; threads := <[i := t']> (threads s);
                 journal := journal s ++ ((λ ev, (i, ev)) <$> evs) |}
          end
      end
  end.

Fixpoint exec (sched : list action) (s : pool) : pool :=
  match sched with
  | [] => s
  | a :: rest => exec rest (perform a s)
  end.

(** How many threads satisfy [p]. *)
Definition tally (p : T -> bool) (l : list T) : nat :=
  sum_list_with (λ t, if p t then 1 else 0) l.

Definition holders (s : pool) : nat := tally holding (threads s).

(** The lock is taken exactly when one thread is in its critical
    section, and no more than one ever is. *)
Definition exclusive (s : pool) : Prop :=
  holders s = if lock s then 1 else 0.

(** The effects thread [i] has produced. *)
Definition effects_of (i : nat) (s : pool) : list event :=
  snd <$> List.filter (λ e, Nat.eqb (fst e) i) (journal s).
End Pool.

Arguments pool : clear implicits.
Arguments action : clear implicits.
Arguments idle_pool {T}.

(** How often [p] holds in a journal. *)
Definition logged (p : event -> bool) (j : list (nat * event)) : nat :=
  length (List.filter (λ e, p (snd e)) j).

(** ** The two users of [camera_lock] (lines 142-156 and 254-271) *)

Inductive client :=
| Streamer                     (* generate_frames() *)
| Capturer (path : string).    (* capture_image(), with the path of line 140 *)

(** Whether the call made in a step returns or raises; at [SEncode], whether
    the loop goes on or the generator ends there. *)
Inductive fate := Fine | Throws.

Inductive camera_thread :=
| SEnter                       (* line 257: at [with camera_lock] *)
| SFrame                       (* line 258: inside, at capture_array *)
| SExit (raised : bool)        (* leaving the [with] *)
| SEncode                      (* lines 260-271: sleep, encode, yield *)
| SOver                        (* the generator has ended *)
| CPrologue (path : string)    (* lines 132-140 *)
| CEnter (path : string)       (* line 144: at [with camera_lock] *)
| CFocus (path : string)       (* lines 145-152: inside, at autofocus_cycle *)
| CStill (path : string)       (* line 155: inside, at capture_file *)
| CExit (raised : bool)        (* leaving the [with] *)
| CEpilogue (raised : bool)    (* lines 157-163 *)
| CDone.

Definition camera_start (r : client) : camera_thread :=
  match r with
  | Streamer => SEnter
  | Capturer path => CPrologue path
  end.

Definition camera_step (c : fate) (locked : bool) (t : camera_thread)
  : option (bool * camera_thread * list event) :=
  match t with
  | SEnter => if locked then None else Some (true, SFrame, [AcquireCamera])
  | SFrame =>
      Some (locked, SExit (match c with Fine => false | Throws => true end),
            [CaptureArray])
  | SExit raised =>
      Some (false, if raised then SOver else SEncode, [ReleaseCamera])
  | SEncode =>
      Some (locked, match c with Fine => SEnter | Throws => SOver end, [])
  | SOver => None
  | CPrologue path => Some (locked, CEnter path, [])
  | CEnter path =>
      if locked then None else Some (true, CFocus path, [AcquireCamera])
  | CFocus path =>
      Some (locked, match c with Fine => CStill path | Throws => CExit true end,
            [AutofocusCycle])
  | CStill path =>
      Some (locked, CExit (match c with Fine => false | Throws => true end),
            [CaptureFile path])
  | CExit raised => Some (false, CEpilogue raised, [ReleaseCamera])
  | CEpilogue _ => Some (locked, CDone, [])
  | CDone => None
  end.

(** The states between [__enter__] and [__exit__] of [with camera_lock]. *)
Definition camera_holding (t : camera_thread) : bool :=
  match t with
  | SFrame | SExit _ | CFocus _ | CStill _ | CExit _ => true
  | _ => false
  end.

(** The states in which a thread has left the function for good. *)
Definition camera_over (t : camera_thread) : bool :=
  match t with
  | SOver | CDone => true
  | _ => false
  end.

Inductive holder_kind := HStreamer | HCapturer.

Definition kind_of (t : camera_thread) : holder_kind :=
  match t with
  | SEnter | SFrame | SExit _ | SEncode | SOver => HStreamer
  | _ => HCapturer
  end.

(** Who holds the camera: the kinds of all threads inside the [with]. *)
Definition camera_holders (s : pool camera_thread) : list holder_kind :=
  kind_of <$> List.filter camera_holding (threads s).

Definition camera_exec (sched : list (action client fate))
  : pool camera_thread :=
  exec camera_start camera_step sched idle_pool.

(** ** blink (lines 68-84) *)

Inductive blink_thread :=
| BTry                                 (* line 72 *)
| BLoop (remaining : nat) (lit : bool) (* lines 76-80, lock held *)
| BCompleted                           (* after line 82 *)
| BDropped.                            (* line 73 *)

(** [blink_led]. The loop runs [range(6)]; with nothing left to do the
    [finally] releases the lock. *)
Definition blink_step (c : unit) (locked : bool) (t : blink_thread)
  : option (bool * blink_thread * list event) :=
  match t with
  | BTry =>
      if locked then Some (locked, BDropped, [TryAcquireBlink false])
      else Some (true, BLoop 6 false, [TryAcquireBlink true])
  | BLoop (S n) false =>
      Some (locked, BLoop (S n) true, [LedOn Ledc; SleepFor (1 # 5)])
  | BLoop (S n) true =>
      Some (locked, BLoop n false, [LedOff Ledc; SleepFor (1 # 5)])
  | BLoop O _ => Some (false, BCompleted, [ReleaseBlink])
  | BCompleted => None
  | BDropped => None
  end.

(** [blink()]: line 84 starts a thread that runs [blink_led]. *)
Definition blink_start (_ : unit) : blink_thread := BTry.

Definition blinking (t : blink_thread) : bool :=
  match t with BLoop _ _ => true | _ => false end.

Definition is_completed (t : blink_thread) : bool :=
  match t with BCompleted => true | _ => false end.

Definition is_dropped (t : blink_thread) : bool :=
  match t with BDropped => true | _ => false end.

Definition is_pending (t : blink_thread) : bool :=
  match t with BTry => true | _ => false end.

Definition blink_exec (sched : list (action unit unit)) : pool blink_thread :=
  exec blink_start blink_step sched idle_pool.

Definition trigger : action unit unit := Spawn tt.

(** Worker [i] runs [n] steps in a row. *)
Definition run_worker (i n : nat) : list (action unit unit) :=
  replicate n (Run i tt).

Definition is_window (e : event) : bool :=
  match e with TryAcquireBlink true => true | _ => false end.

Definition is_release_blink (e : event) : bool :=
  match e with ReleaseBlink => true | _ => false end.

Definition is_led_event (e : event) : bool :=
  match e with LedOn _ | LedOff _ | LedToggle _ => true | _ => false end.

(** ** Vocabulary of the properties *)

(** Position of the first effect that satisfies [p]. *)
Fixpoint first_index (p : event -> bool) (tr : list event) : option nat :=
  match tr with
  | [] => None
  | e :: rest => if p e then Some 0 else S <$> first_index p rest
  end.

(** Both a [p] and a [q] effect occur, the first [p] before the first [q]. *)
Definition precedes (p q : event -> bool) (tr : list event) : bool :=
  match first_index p tr, first_index q tr with
  | Some a, Some b => a <? b
  | _, _ => false
  end.

(** Iteration [k] is the first of an idle episode: it finds the idle
    condition true, and the iteration before it, if any, found it false. *)
Definition episode_start (ins : list tick_in) (k : nat) : bool :=
  match ins !! k with
  | None => false
  | Some i =>
      idle_condition i &&
      match k with
      | O => true
      | S k' =>
          match ins !! k' with
          | Some j => negb (idle_condition j)
          | None => false
          end
      end
  end.

(** The iteration reached the end of the loop body. *)
Definition completed (o : tick_out) : bool :=
  match ended o with Returned _ => true | Raised _ => false end.

(** Two clock readings within the same second. *)
Definition same_second (d1 d2 : datetime) : Prop :=
  year d1 = year d2 ∧ month d1 = month d2 ∧ day d1 = day d2 ∧
  hour d1 = hour d2 ∧ minute d1 = minute d2 ∧ second d1 = second d2.

(** A run of [capture_image] whose still capture writes [img]. *)
Definition captures (e : capture_env) (img : image) : Prop :=
  (∃ success, autofocus_cycle e = Returned success) ∧
  capture_file e = Returned img.

(** An upper bound on the steps a thread still takes inside
    [with camera_lock]. *)
Definition inside (t : camera_thread) : nat :=
  match t with
  | SFrame => 2
  | SExit _ => 1
  | CFocus _ => 3
  | CStill _ => 2
  | CExit _ => 1
  | _ => 0
  end.

Definition is_acquire_camera (e : event) : bool :=
  match e with AcquireCamera => true | _ => false end.

Definition is_release_camera (e : event) : bool :=
  match e with ReleaseCamera => true | _ => false end.

Definition is_camera_event (e : event) : bool :=
  match e with
  | AcquireCamera | ReleaseCamera | AutofocusCycle | CaptureFile _
  | CaptureArray => true
  | _ => false
  end.

Definition fate_of {A : Type} (r : outcome A) : fate :=
  match r with Returned _ => Fine | Raised _ => Throws end.

(** One capture thread on its own, with the camera calls behaving as in
    [e]: spawned, then scheduled until it is over. *)
Definition capturer_alone (e : capture_env) : list (action client fate) :=
  Spawn (Capturer (capture_path (name_clock e)))
  :: (Run 0 <$> [Fine; Fine; fate_of (autofocus_cycle e);
                 fate_of (capture_file e); Fine; Fine]).

Definition is_busy (e : event) : bool :=
  match e with TryAcquireBlink false => true | _ => false end.

Definition is_trigger (a : action unit unit) : bool :=
  match a with Spawn _ => true | Run _ _ => false end.

(** What the journal says about the workers: a successful attempt for every
    worker that is blinking or has completed, a failed one for every worker
    that was dropped, a release for every completed one. *)
Definition blink_accounts (s : pool blink_thread) : Prop :=
  tally is_completed (threads s) + tally blinking (threads s)
    = logged is_window (journal s) ∧
  tally is_dropped (threads s) = logged is_busy (journal s) ∧
  tally is_completed (threads s) = logged is_release_blink (journal s).

(** ** Sample inputs *)

Definition sample_clock : datetime :=
  {| year := 2024; month := 3; day := 7; hour := 9; minute := 5;
     second := 42; microsecond := 120 |}.

Definition sample_clock_later : datetime :=
  {| year := 2024; month := 3; day := 7; hour := 9; minute := 5;
     second := 42; microsecond := 870 |}.

(** Module just loaded at clock reading 0. *)
Definition sample_world : world := initial_world 0%Q.

(** 1000 s without activity, no client, [sudo poweroff] works. *)
Definition tick_both : tick_in :=
  {| current_time := 1000%Q; seen := sample_world; poweroff_exits_0 := true |}.

(** The same, but [sudo poweroff] exits with a non-zero status. *)
Definition tick_poweroff_fails : tick_in :=
  {| current_time := 1000%Q; seen := sample_world; poweroff_exits_0 := false |}.

(** The iteration after that: still no activity and no client. *)
Definition tick_both_again : tick_in :=
  {| current_time := 1006%Q; seen := sample_world; poweroff_exits_0 := true |}.

(** 400 s without activity. *)
Definition tick_idle : tick_in :=
  {| current_time := 400%Q; seen := sample_world; poweroff_exits_0 := true |}.

(** Activity 10 s ago. *)
Definition tick_active : tick_in :=
  {| current_time := 410%Q; seen := set_timer 400%Q sample_world;
     poweroff_exits_0 := true |}.

(** Autofocus reports failure, the still is written. *)
Definition env_unfocused : capture_env :=
  {| ping_clock := sample_clock; timer_clock := 12%Q;
     name_clock := sample_clock;
     autofocus_cycle := Returned false; capture_file := Returned [255; 216] |}.

(** The still capture raises. *)
Definition env_capture_raises : capture_env :=
  {| ping_clock := sample_clock; timer_clock := 12%Q;
     name_clock := sample_clock;
     autofocus_cycle := Returned true;
     capture_file := Raised (Exn "Camera frontend has timed out") |}.

(** A second capture within the same second. *)
Definition env_second_shot : capture_env :=
  {| ping_clock := sample_clock_later; timer_clock := 13%Q;
     name_clock := sample_clock_later;
     autofocus_cycle := Returned true; capture_file := Returned [255; 217] |}.

(** One trigger; its worker takes the lock and runs the six rounds, up to
    but not including the release. *)
Definition blink_almost_done : list (action unit unit) :=
  [trigger] ++ run_worker 0 13.

(** The first worker releases; the second worker then runs to its end. *)
Definition blink_late_start : list (action unit unit) :=
  run_worker 0 1 ++ run_worker 1 14.

(** ** monitor_client (lines 86-95) *)

(** The fields of a [datetime] object are within these ranges. *)
Definition valid_datetime (d : datetime) : Prop :=
  (1 ≤ Z.of_nat (year d) ≤ 9999)%Z ∧ 1 ≤ month d ≤ 12 ∧ 1 ≤ day d ≤ 31 ∧
  hour d < 24 ∧ minute d < 60 ∧ second d < 60 ∧
  (Z.of_nat (microsecond d) < 1000000)%Z.

(** The years [strftime] prints with four digits on every platform. *)
Definition four_digit_year (d : datetime) : Prop := 1000 ≤ year d.

Definition is_leap (y : Z) : bool :=
  ((y mod 4 =? 0) && (negb (y mod 100 =? 0) || (y mod 400 =? 0)))%Z.

(** Days of the proleptic Gregorian calendar before 1 January of [y]. *)
Definition days_before_year (y : Z) : Z :=
  (let p := y - 1 in p * 365 + p / 4 - p / 100 + p / 400)%Z.

(** Days of year [y] before the first of month [m]. *)
Definition days_before_month (y m : Z) : Z :=
  (nth (Z.to_nat m) [0; 0; 31; 59; 90; 120; 151; 181; 212; 243; 273; 304; 334] 0
   + (if (2 <? m) && is_leap y then 1 else 0))%Z.

(** [d.toordinal()]. *)
Definition toordinal (d : datetime) : Z :=
  (days_before_year (Z.of_nat (year d))
   + days_before_month (Z.of_nat (year d)) (Z.of_nat (month d))
   + Z.of_nat (day d))%Z.

Definition to_microseconds (d : datetime) : Z :=
  ((toordinal d * 86400
    + (Z.of_nat (hour d) * 3600 + Z.of_nat (minute d) * 60 + Z.of_nat (second d)))
   * 1000000 + Z.of_nat (microsecond d))%Z.

(** [a - b] on naive datetimes: a [timedelta], here in microseconds;
    timedeltas compare as their microseconds do. *)
Definition datetime_sub (a b : datetime) : Z :=
  (to_microseconds a - to_microseconds b)%Z.

(** [timedelta(seconds=60)]. *)
Definition timeout_duration : Z := 60000000%Z.

(** Lines 91-95, the body under [state_lock] of one iteration. *)
Definition client_check (now : datetime) (w : world) : list event * world :=
  match last_ping w with
  | Some ping_time =>
      if (timeout_duration <? datetime_sub now ping_time)%Z
      then ([Log INFO "Client timeout detected."], set_status false w)
      else ([], w)
  | None => ([], w)
  end.

(** One iteration of the loop: sleep 25 s, then the check. *)
Definition client_tick (now : datetime) (w : world) : list event * world :=
  let '(tr, w') := client_check now w in ([SleepFor 25] ++ tr, w').

(** ** hardware_button_listener (lines 282-294) *)

(** [lambda: (update_timer(), led1.toggle())]: the tuple is built left to
    right. *)
Definition led1_button_pressed (now : Q) (w : world) : list event * world :=
  let '(tr, w1) := update_timer now w in
  (tr ++ [LedToggle Led1], led_toggle Led1 w1).

Definition led2_button_pressed (now : Q) (w : world) : list event * world :=
  let '(tr, w1) := update_timer now w in
  (tr ++ [LedToggle Led2], led_toggle Led2 w1).

(** [capture_button.when_pressed = update_timer];
    [capture_button.when_held = capture_image]. *)
Definition capture_button_pressed (now : Q) (w : world) : list event * world :=
  update_timer now w.

Definition capture_button_held (e : capture_env) (w : world)
  : list event * world * outcome unit :=
  capture_image e w.

(** ** The device as a whole

    The calls the process serves: requests, button callbacks, capture runs
    and the iterations of the two monitor loops. [serve_all] is what a
    sequence of such calls does to the globals when each call runs to its
    end before the next one begins. *)

Inductive op :=
| OpPing (d : datetime) (t : Q)           (* /ping *)
| OpStatusRead (r : status_read)          (* the four status routes *)
| OpToggle1 (t : Q)                       (* /led1_toggle *)
| OpToggle2 (t : Q)                       (* /led2_toggle *)
| OpButton1 (t : Q)                       (* led1_button pressed *)
| OpButton2 (t : Q)                       (* led2_button pressed *)
| OpCaptureButton (t : Q)                 (* capture_button pressed *)
| OpCapture (e : capture_env)             (* capture_image, by route or hold *)
| OpClientTick (now : datetime)           (* monitor_client, one iteration *)
| OpPowerTick (now : Q) (exits_0 : bool). (* shutdown_monitor, one iteration *)

Record device := {
  globals : world;
  (* [Returned flag]: the loop of [shutdown_monitor] runs, with this
     [idle_mode_active]; [Raised e]: it has ended. *)
  power_thread : outcome bool;
  history : list event
}.

Definition boot (t0 : Q) : device :=
  {| globals := initial_world t0; power_thread := Returned false;
     history := [] |}.

Definition serve (o : op) (dv : device) : device :=
  let advance (r : list event * world) :=
    {| globals := r.2; power_thread := power_thread dv;
       history := history dv ++ r.1 |} in
  match o with
  | OpPing d t => advance (ping d t (globals dv)).1
  | OpStatusRead r => advance (serve_status_read r (globals dv)).1
  | OpToggle1 t => advance (toggle_led1_route t (globals dv)).1
  | OpToggle2 t => advance (toggle_led2_route t (globals dv)).1
  | OpButton1 t => advance (led1_button_pressed t (globals dv))
  | OpButton2 t => advance (led2_button_pressed t (globals dv))
  | OpCaptureButton t => advance (capture_button_pressed t (globals dv))
  | OpCapture e => advance (capture_button_held e (globals dv)).1
  | OpClientTick now => advance (client_tick now (globals dv))
  | OpPowerTick now exits_0 =>
      match power_thread dv with
      | Raised _ => dv
      | Returned flag =>
          let o := monitor_tick flag
                     {| current_time := now; seen := globals dv;
                        poweroff_exits_0 := exits_0 |} in
          {| globals := after o; power_thread := ended o;
             history := history dv ++ effects o |}
      end
  end.

Definition serve_all (ops : list op) (dv : device) : device :=
  foldl (λ dv o, serve o dv) dv ops.

Definition is_ping (o : op) : bool :=
  match o with OpPing _ _ => true | _ => false end.

(** The paths the capture runs among [ops] write to when their still
    capture succeeds. *)
Definition captured_paths (ops : list op) : list string :=
  omap (λ o, match o with
             | OpCapture e => Some (capture_path (name_clock e))
             | _ => None
             end) ops.

(** ** list_files (lines 186-216) *)

(** [c.lower()] on an ASCII letter; other bytes are left alone. No character
    outside ASCII lowers to one of the letters of the four suffixes. *)
Definition lower_ascii (c : ascii) : ascii :=
  let n := nat_of_ascii c in
  if (65 <=? n) && (n <=? 90) then ascii_of_nat (n + 32) else c.

Fixpoint str_lower (s : string) : string :=
  match s with
  | EmptyString => EmptyString
  | String c rest => String (lower_ascii c) (str_lower rest)
  end.

(** [s.endswith(suffix)]. *)
Fixpoint str_endswith (suffix s : string) : bool :=
  if String.eqb s suffix then true
  else match s with
       | EmptyString => false
       | String _ rest => str_endswith suffix rest
       end.

(** [name.lower().endswith(('.png', '.jpg', '.jpeg', '.gif'))]. *)
Definition is_image_name (name : string) : bool :=
  let n := str_lower name in
  str_endswith ".png" n || str_endswith ".jpg" n ||
  str_endswith ".jpeg" n || str_endswith ".gif" n.

(** An entry of [os.scandir] on which [is_file()] answers: its name, the
    answer, and what [stat()] gives for [st_mtime], which raises when the
    file has gone. Entries on which [is_file()] itself raises are those of
    [scan_entry] below. *)
Record dir_entry := {
  entry_name : string;
  entry_is_file : bool;
  entry_mtime : outcome Q
}.

(** Lines 195-197: the loop over the entries, appending to
    [files_with_stats]; [stat] is only called on the entries that pass the
    test, and an exception leaves the loop. *)
Fixpoint collect_stats (entries : list dir_entry)
  : outcome (list (string * Q)) :=
  match entries with
  | [] => Returned []
  | en :: rest =>
      if entry_is_file en && is_image_name (entry_name en) then
        match entry_mtime en with
        | Raised x => Raised x
        | Returned m =>
            match collect_stats rest with
            | Raised x => Raised x
            | Returned l => Returned ((entry_name en, m) :: l)
            end
        end
      else collect_stats rest
  end.

(** [l.sort(key=lambda x: x[1], reverse=True)]: by decreasing key, entries
    with equal keys in their original order. *)
Fixpoint insert_newest (x : string * Q) (l : list (string * Q))
  : list (string * Q) :=
  match l with
  | [] => [x]
  | y :: rest =>
      if Qle_bool y.2 x.2 then x :: y :: rest
      else y :: insert_newest x rest
  end.

Fixpoint sort_newest_first (l : list (string * Q)) : list (string * Q) :=
  match l with
  | [] => []
  | x :: rest => insert_newest x (sort_newest_first rest)
  end.

(** A slice bound, as [l[start:stop]] adjusts it for a list of length
    [len]. *)
Definition slice_bound (len i : Z) : Z :=
  (if i <? 0 then Z.max (i + len) 0 else Z.min i len)%Z.

(** [l[start:stop]]. *)
Definition py_slice {A : Type} (l : list A) (start stop : Z) : list A :=
  let len := Z.of_nat (length l) in
  let a := slice_bound len start in
  let b := slice_bound len stop in
  take (Z.to_nat (b - a)) (drop (Z.to_nat a) l).

(** A request to [/list_files]: for either argument, [None] when it is
    absent, else what [int()] makes of its text; and what [os.scandir]
    yields. *)
Record list_request := {
  page_arg : option (outcome Z);
  per_page_arg : option (outcome Z);
  scandir : outcome (list dir_entry)
}.

Inductive list_response :=
| Listing (page per_page : Z) (total : nat) (files : list string)  (* 200 *)
| ListError (error : string).                                      (* 500 *)

(** [int(request.args.get(name, default))]. *)
Definition int_arg (arg : option (outcome Z)) (default : Z) : outcome Z :=
  match arg with
  | None => Returned default
  | Some r => r
  end.

(** Lines 189-206, the body of the [try]. *)
Definition list_files_body (rq : list_request) : outcome list_response :=
  match int_arg (page_arg rq) 1 with
  | Raised x => Raised x
  | Returned page =>
      match int_arg (per_page_arg rq) 10 with
      | Raised x => Raised x
      | Returned per_page =>
          match scandir rq with
          | Raised x => Raised x
          | Returned entries =>
              match collect_stats entries with
              | Raised x => Raised x
              | Returned files_with_stats =>
                  let sorted_filenames :=
                    fst <$> sort_newest_first files_with_stats in
                  let total_files := length sorted_filenames in
                  let start := ((page - 1) * per_page)%Z in
                  let stop := (start + per_page)%Z in
                  Returned (Listing page per_page total_files
                              (py_slice sorted_filenames start stop))
              end
          end
      end
  end.

(** The route: [except Exception as e] logs and answers 500. *)
Definition list_files (rq : list_request) : list event * list_response :=
  match list_files_body rq with
  | Returned resp => ([], resp)
  | Raised x =>
      ([Log ERROR ("Error listing files: " +:+ exn_str x)],
       ListError (exn_str x))
  end.

(** The image files among the entries, and their names newest first. *)
Definition image_entries (entries : list dir_entry) : list dir_entry :=
  List.filter (λ en, entry_is_file en && is_image_name (entry_name en)) entries.

Definition listed_files (resp : list_response) : list string :=
  match resp with
  | Listing _ _ _ files => files
  | ListError _ => []
  end.

(** A request with both arguments given as integers, on a directory that
    can be scanned. *)
Definition request_for (page per_page : Z) (entries : list dir_entry)
  : list_request :=
  {| page_arg := Some (Returned page);
     per_page_arg := Some (Returned per_page);
     scandir := Returned entries |}.

(** [sorted_filenames] of line 201 for these entries. *)
Definition sorted_names (entries : list dir_entry) : list string :=
  match collect_stats entries with
  | Returned l => fst <$> sort_newest_first l
  | Raised _ => []
  end.

(** [stat()] works on every image file of the directory. *)
Definition readable (entries : list dir_entry) : Prop :=
  ∀ en, en ∈ image_entries entries → ∃ m, entry_mtime en = Returned m.

(** Keys in non-increasing order. *)
Fixpoint newest_first (l : list (string * Q)) : Prop :=
  match l with
  | [] => True
  | x :: rest => (∀ y, y ∈ rest → (y.2 <= x.2)%Q) ∧ newest_first rest
  end.

(** The clock reading an operation stores in [timer], if it stores one. *)
Definition touch_time (o : op) : option Q :=
  match o with
  | OpPing _ t | OpToggle1 t | OpToggle2 t | OpButton1 t | OpButton2 t
  | OpCaptureButton t => Some t
  | OpCapture e => Some (timer_clock e)
  | OpStatusRead _ | OpClientTick _ | OpPowerTick _ _ => None
  end.

(** ** Further vocabulary *)

(** Replays a journal against the camera lock. [owner] is the thread inside
    [with camera_lock], if any; the result is the owner at the end, or
    [None] when some effect does not fit: an acquisition while the lock is
    owned, or a camera call or a release by a thread that does not own it. *)
Fixpoint camera_owner (owner : option nat) (j : list (nat * event))
  : option (option nat) :=
  match j with
  | [] => Some owner
  | (i, e) :: rest =>
      match e with
      | AcquireCamera =>
          match owner with
          | None => camera_owner (Some i) rest
          | Some _ => None
          end
      | ReleaseCamera =>
          if bool_decide (owner = Some i) then camera_owner None rest else None
      | AutofocusCycle | CaptureFile _ | CaptureArray =>
          if bool_decide (owner = Some i) then camera_owner owner rest else None
      | _ => camera_owner owner rest
      end
  end.

Definition is_ledc_on (e : event) : bool :=
  match e with LedOn Ledc => true | _ => false end.

Definition is_ledc_off (e : event) : bool :=
  match e with LedOff Ledc => true | _ => false end.

(** How often a worker has switched the indicator LED on, and off. *)
Definition switched_on (t : blink_thread) : nat :=
  match t with
  | BLoop n lit => (6 - n) + (if lit then 1 else 0)
  | BCompleted => 6
  | _ => 0
  end.

Definition switched_off (t : blink_thread) : nat :=
  match t with
  | BLoop n _ => 6 - n
  | BCompleted => 6
  | _ => 0
  end.

(** The worker has the LED on. *)
Definition is_lit (t : blink_thread) : bool :=
  match t with BLoop _ true => true | _ => false end.

(** The loop counter is within [range(6)], and the LED is only on within a
    round. *)
Definition blink_thread_ok (t : blink_thread) : Prop :=
  match t with
  | BLoop n lit => n ≤ 6 ∧ (lit = true → 1 ≤ n)
  | _ => True
  end.

(** The steps a worker still takes until it has released the lock. *)
Definition steps_left (t : blink_thread) : nat :=
  match t with
  | BLoop n lit => 2 * n + 1 - (if lit then 1 else 0)
  | _ => 0
  end.

(** More sample inputs *)

(** 29 February 2024, 23:59:30, and 50 s later, on 1 March. *)
Definition leap_evening : datetime :=
  {| year := 2024; month := 2; day := 29; hour := 23; minute := 59;
     second := 30; microsecond := 0 |}.

Definition march_morning : datetime :=
  {| year := 2024; month := 3; day := 1; hour := 0; minute := 0;
     second := 20; microsecond := 0 |}.

(** 61 s after [leap_evening]. *)
Definition march_later : datetime :=
  {| year := 2024; month := 3; day := 1; hour := 0; minute := 0;
     second := 31; microsecond := 0 |}.

(** A directory with two stills, a note and a sub-directory. *)
Definition sample_dir : list dir_entry :=
  [ {| entry_name := "old.JPG"; entry_is_file := true;
       entry_mtime := Returned 10%Q |};
    {| entry_name := "notes.txt"; entry_is_file := true;
       entry_mtime := Returned 30%Q |};
    {| entry_name := "new.jpeg"; entry_is_file := true;
       entry_mtime := Returned 20%Q |};
    {| entry_name := "thumbs.png"; entry_is_file := false;
       entry_mtime := Returned 40%Q |} ].

(** ** list_files, with entries that cannot be examined

    [entry.is_file()] is a call of its own: it is made for every entry,
    before the name is looked at, and it raises [OSError] on an entry that
    cannot be examined (a symbolic link that loops, say). [dir_entry] above
    describes the entries for which it answers; [scan_entry] lets it
    raise. *)
Record scan_entry := {
  scan_name : string;
  scan_is_file : outcome bool;
  scan_mtime : outcome Q
}.

(** Lines 195-197: [is_file()] first, then the test of the name, by the
    short-circuit [and]; [stat] on the entries that pass both. The first
    exception leaves the loop. *)
Fixpoint collect_stats_scan (entries : list scan_entry)
  : outcome (list (string * Q)) :=
  match entries with
  | [] => Returned []
  | en :: rest =>
      match scan_is_file en with
      | Raised x => Raised x
      | Returned is_file =>
          if is_file && is_image_name (scan_name en) then
            match scan_mtime en with
            | Raised x => Raised x
            | Returned m =>
                match collect_stats_scan rest with
                | Raised x => Raised x
                | Returned l => Returned ((scan_name en, m) :: l)
                end
            end
          else collect_stats_scan rest
      end
  end.

Record scan_request := {
  scan_page_arg : option (outcome Z);
  scan_per_page_arg : option (outcome Z);
  scan_dir : outcome (list scan_entry)
}.

(** Lines 189-206, the body of the [try]. *)
Definition list_files_scan_body (rq : scan_request) : outcome list_response :=
  match int_arg (scan_page_arg rq) 1 with
  | Raised x => Raised x
  | Returned page =>
      match int_arg (scan_per_page_arg rq) 10 with
      | Raised x => Raised x
      | Returned per_page =>
          match scan_dir rq with
          | Raised x => Raised x
          | Returned entries =>
              match collect_stats_scan entries with
              | Raised x => Raised x
              | Returned files_with_stats =>
                  let sorted_filenames :=
                    fst <$> sort_newest_first files_with_stats in
                  let total_files := length sorted_filenames in
                  let start := ((page - 1) * per_page)%Z in
                  let stop := (start + per_page)%Z in
                  Returned (Listing page per_page total_files
                              (py_slice sorted_filenames start stop))
              end
          end
      end
  end.

(** The route: [except Exception as e] logs and answers 500. *)
Definition list_files_scan (rq : scan_request) : list event * list_response :=
  match list_files_scan_body rq with
  | Returned resp => ([], resp)
  | Raised x =>
      ([Log ERROR ("Error listing files: " +:+ exn_str x)],
       ListError (exn_str x))
  end.

(** An entry whose [is_file()] answers, and a request whose entries all
    do. *)
Definition answering (en : dir_entry) : scan_entry :=
  {| scan_name := entry_name en;
     scan_is_file := Returned (entry_is_file en);
     scan_mtime := entry_mtime en |}.

Definition answering_request (rq : list_request) : scan_request :=
  {| scan_page_arg := page_arg rq;
     scan_per_page_arg := per_page_arg rq;
     scan_dir := match scandir rq with
                 | Returned entries => Returned (answering <$> entries)
                 | Raised x => Raised x
                 end |}.

(** The loop raises [x] at this entry: [is_file()] does, or the entry is an
    image file and its [stat] does. *)
Definition entry_raises (en : scan_entry) (x : exn) : Prop :=
  scan_is_file en = Raised x ∨
  (scan_is_file en = Returned true ∧ is_image_name (scan_name en) = true ∧
   scan_mtime en = Raised x).

(** What makes a listing fail: an argument that [int()] rejects, a
    directory that cannot be scanned, an entry at which the loop raises. *)
Definition scan_fault (rq : scan_request) : Prop :=
  (∃ x, scan_page_arg rq = Some (Raised x)) ∨
  (∃ x, scan_per_page_arg rq = Some (Raised x)) ∨
  (∃ x, scan_dir rq = Raised x) ∨
  (∃ entries en x, scan_dir rq = Returned entries ∧ en ∈ entries ∧
                   entry_raises en x).

(** A directory with a still and a symbolic link that loops. *)
Definition dir_with_looping_link : list scan_entry :=
  [ {| scan_name := "old.JPG"; scan_is_file := Returned true;
       scan_mtime := Returned 10%Q |};
    {| scan_name := "loop";
       scan_is_file := Raised (Exn "Too many levels of symbolic links");
       scan_mtime := Raised (Exn "Too many levels of symbolic links") |} ].

(** A directory in which a file that is no image cannot be read. *)
Definition dir_with_broken_note : list dir_entry :=
  [ {| entry_name := "old.JPG"; entry_is_file := true;
       entry_mtime := Returned 10%Q |};
    {| entry_name := "notes.txt"; entry_is_file := true;
       entry_mtime := Raised (Exn "No such file or directory") |} ].

(** The owner the journal ends with is the thread inside the [with]. *)
Definition journal_fits (s : pool camera_thread) (ow : option nat) : Prop :=
  camera_owner None (journal s) = Some ow ∧
  ∀ i, ow = Some i ↔
       ∃ t, threads s !! i = Some t ∧ camera_holding t = true.

(** What the journal says about the LED pulses of the workers. *)
Definition blink_pulses (s : pool blink_thread) : Prop :=
  Forall blink_thread_ok (threads s) ∧
  logged is_ledc_on (journal s) = sum_list_with switched_on (threads s) ∧
  logged is_ledc_off (journal s) = sum_list_with switched_off (threads s).

(** * Properties *)

(** ** Clock comparisons *)

Lemma py_gt_true (x y : Q) : py_gt x y = true ↔ (y < x)%Q.
Proof.
  unfold py_gt. rewrite negb_true_iff. split.
  - intros Hle. apply Qnot_le_lt. intros H.
    apply Qle_bool_iff in H. congruence.
  - intros Hlt. destruct (Qle_bool x y) eqn:E; [|done].
    apply Qle_bool_iff in E. exfalso. by apply (Qlt_not_le y x).
Qed.

Lemma py_gt_false (x y : Q) : py_gt x y = false ↔ (x <= y)%Q.
Proof.
  unfold py_gt. rewrite negb_false_iff. apply Qle_bool_iff.
Qed.

Lemma shutdown_condition_spec (i : tick_in) :
  shutdown_condition i = true ↔
  (T_shutdown < duration i)%Q ∧ status (seen i) = false.
Proof.
  unfold shutdown_condition.
  rewrite andb_true_iff, py_gt_true, negb_true_iff. done.
Qed.

Lemma shutdown_implies_idle (i : tick_in) :
  shutdown_condition i = true → idle_condition i = true.
Proof.
  intros [Hd _]%shutdown_condition_spec.
  apply py_gt_true. eapply Qlt_trans; [|exact Hd]. reflexivity.
Qed.

(** ** shutdown_monitor, one iteration *)

Lemma poweroffs_app (a b : list event) :
  poweroffs (a ++ b) = poweroffs a + poweroffs b.
Proof. unfold poweroffs. by rewrite List.filter_app, length_app. Qed.

Lemma idle_forcings_app (a b : list event) :
  idle_forcings (a ++ b) = idle_forcings a + idle_forcings b.
Proof. unfold idle_forcings. by rewrite List.filter_app, length_app. Qed.

(** The warning blink issues no power-off and no idle forcing. *)
Lemma warning_blink_quiet (n : nat) (w : world) :
  poweroffs (warning_blink n w).1 = 0 ∧ idle_forcings (warning_blink n w).1 = 0.
Proof.
  revert w. induction n as [|n IH]; intros w; [done|].
  simpl. specialize (IH (led_toggle Led2 (led_toggle Led1 w))).
  destruct (warning_blink n _) as [tr w2]. simpl in *. exact IH.
Qed.

(** Five toggles leave each status LED flipped. *)
Lemma warning_blink_5 (w : world) :
  led1 (warning_blink 5 w).2 = negb (led1 w) ∧
  led2 (warning_blink 5 w).2 = negb (led2 w).
Proof. simpl. by destruct (led1 w), (led2 w). Qed.

Lemma shutdown_block_poweroffs (i : tick_in) :
  poweroffs (shutdown_block i).1.1 = if shutdown_condition i then 1 else 0.
Proof.
  unfold shutdown_block. destruct (shutdown_condition i); [|done].
  pose proof (warning_blink_quiet 5 (seen i)) as [Hp _].
  destruct (warning_blink 5 (seen i)) as [tr w1]. simpl in *.
  change (Log WARNING "Inactivity shutdown triggered." :: tr ++ [Poweroff])
    with ([Log WARNING "Inactivity shutdown triggered."] ++ tr ++ [Poweroff]).
  rewrite !poweroffs_app, Hp. done.
Qed.

Lemma shutdown_block_idle_forcings (i : tick_in) :
  idle_forcings (shutdown_block i).1.1 = 0.
Proof.
  unfold shutdown_block. destruct (shutdown_condition i); [|done].
  pose proof (warning_blink_quiet 5 (seen i)) as [_ Hf].
  destruct (warning_blink 5 (seen i)) as [tr w1]. simpl in *.
  change (Log WARNING "Inactivity shutdown triggered." :: tr ++ [Poweroff])
    with ([Log WARNING "Inactivity shutdown triggered."] ++ tr ++ [Poweroff]).
  rewrite !idle_forcings_app, Hf. done.
Qed.

Lemma shutdown_block_ended (i : tick_in) :
  (∃ u, (shutdown_block i).2 = Returned u) ↔
  (shutdown_condition i = false ∨ poweroff_exits_0 i = true).
Proof.
  unfold shutdown_block. destruct (shutdown_condition i).
  - destruct (warning_blink 5 (seen i)) as [tr w1]. simpl.
    destruct (poweroff_exits_0 i); split; eauto.
    + intros [u Hu]. discriminate.
    + intros [H|H]; discriminate.
  - simpl. split; eauto.
Qed.

Lemma idle_block_spec (flag : bool) (i : tick_in) (w : world) :
  let '(tr, w', flag') := idle_block flag i w in
  poweroffs tr = 0 ∧
  idle_forcings tr = (if idle_condition i && negb flag then 1 else 0) ∧
  flag' = idle_condition i ∧
  (idle_forcings tr = 1 → led1 w' = false ∧ led2 w' = false).
Proof.
  unfold idle_block, off_if_active.
  destruct (idle_condition i), flag; simpl; try done.
  destruct (led1 w) eqn:E1, (led2 w) eqn:E2; simpl; rewrite ?E2; simpl;
    repeat split; try done.
Qed.

Lemma monitor_tick_spec (flag : bool) (i : tick_in) :
  let o := monitor_tick flag i in
  poweroffs (effects o) = (if shutdown_condition i then 1 else 0) ∧
  completed o = negb (shutdown_condition i) || poweroff_exits_0 i ∧
  idle_forcings (effects o) =
    (if idle_condition i && negb flag && completed o then 1 else 0) ∧
  (∀ f, ended o = Returned f → f = idle_condition i) ∧
  (idle_forcings (effects o) = 1 → led1 (after o) = false ∧ led2 (after o) = false).
Proof.
  unfold monitor_tick.
  pose proof (shutdown_block_poweroffs i) as Hp.
  pose proof (shutdown_block_idle_forcings i) as Hf.
  pose proof (shutdown_block_ended i) as He.
  destruct (shutdown_block i) as [[tr1 w1] r1]. simpl in Hp, Hf, He.
  destruct r1 as [u|x].
  - pose proof (idle_block_spec flag i w1) as Hi.
    destruct (idle_block flag i w1) as [[tr2 w2] f2].
    destruct Hi as (Hp2 & Hf2 & Hflag & Hleds).
    cbn [effects after ended completed].
    assert (negb (shutdown_condition i) || poweroff_exits_0 i = true) as ->.
    { destruct He as [[H|H] _]; [by eauto|by rewrite H|].
      rewrite H. apply orb_true_r. }
    rewrite !poweroffs_app, !idle_forcings_app, Hp, Hp2, Hf, Hf2.
    rewrite andb_true_r. change (poweroffs [SleepFor 5]) with 0.
    change (idle_forcings [SleepFor 5]) with 0.
    split; [lia|]. split; [done|]. split; [lia|]. split.
    + intros f [= <-]. done.
    + intros H. apply Hleds. lia.
  - cbn [effects after ended completed].
    assert (negb (shutdown_condition i) || poweroff_exits_0 i = false) as ->.
    { destruct (negb (shutdown_condition i) || poweroff_exits_0 i) eqn:E; [|done].
      apply orb_true_iff in E. rewrite negb_true_iff in E.
      destruct He as [_ [u Hu]]; [done|discriminate]. }
    rewrite !poweroffs_app, !idle_forcings_app, Hp, Hf. rewrite andb_false_r.
    change (poweroffs [SleepFor 5]) with 0.
    change (idle_forcings [SleepFor 5]) with 0.
    repeat split; try lia; try done.
Qed.

(** One iteration of the power monitor: with a connected client the
    power-off command is not issued, whatever the idle time; it is issued
    only when the idle time exceeds 900 s and no client is connected, and
    then it is issued exactly once in that iteration. *)
Lemma monitor_tick_poweroffs (flag : bool) (i : tick_in) :
  let n := poweroffs (effects (monitor_tick flag i)) in
  (status (seen i) = true → n = 0) ∧
  (n ≠ 0 → (T_shutdown < duration i)%Q ∧ status (seen i) = false) ∧
  ((T_shutdown < duration i)%Q ∧ status (seen i) = false → n = 1).
Proof.
  destruct (monitor_tick_spec flag i) as (Hp & _). simpl. rewrite Hp.
  pose proof (shutdown_condition_spec i) as Hs.
  destruct (shutdown_condition i).
  - destruct Hs as [[Hd Hst] _]; [done|]. repeat split; try done.
    intros H. congruence.
  - repeat split; try done. intros H. apply Hs in H. discriminate.
Qed.

(** C2, as stated, fails: the loop keeps no memory of a power-off it has
    issued. Two iterations in a row find the idle time above 900 s and no
    client, [check_call] returns both times, and the power-off command is
    issued twice in the run, once in each iteration. *)
Lemma poweroff_issued_on_each_tick_example :
  (poweroffs ∘ effects) <$> shutdown_monitor [tick_both; tick_both_again]
    = [1; 1].
Proof. vm_compute. done. Qed.

(** C3, amended. On every iteration the shutdown condition is evaluated
    before the idle condition. When the shutdown condition holds, so does
    the idle condition, and the power-off command is issued once; the idle
    forcing follows in the same iteration exactly when [check_call] returns
    and the idle flag was clear, and then it comes after the power-off and
    leaves both status LEDs off. *)
Theorem shutdown_precedes_idle_forcing (flag : bool) (i : tick_in) :
  shutdown_condition i = true →
  let o := monitor_tick flag i in
  idle_condition i = true ∧
  poweroffs (effects o) = 1 ∧
  (idle_forcings (effects o) = 1 ↔ poweroff_exits_0 i = true ∧ flag = false) ∧
  (idle_forcings (effects o) = 1 →
     precedes is_poweroff is_idle_log (effects o) = true ∧
     precedes is_idle_log is_poweroff (effects o) = false ∧
     led1 (after o) = false ∧ led2 (after o) = false).
Proof.
  intros Hs o.
  pose proof (shutdown_implies_idle i Hs) as Hidle.
  destruct (monitor_tick_spec flag i) as (Hp & Hc & Hf & _ & Hleds).
  fold o in Hp, Hc, Hf, Hleds.
  rewrite Hs in Hp, Hc. rewrite Hidle, Hc in Hf. simpl in Hc, Hf.
  split; [done|]. split; [done|]. split.
  - rewrite Hf.
    destruct flag, (poweroff_exits_0 i); simpl; (split; [|intros [? ?]]); done.
  - intros H1. destruct (Hleds H1) as [Hl1 Hl2].
    rewrite H1 in Hf.
    destruct flag; [by destruct (poweroff_exits_0 i)|].
    destruct (poweroff_exits_0 i) eqn:Hx; [|done].
    repeat split; try done.
    + subst o. unfold monitor_tick, shutdown_block, idle_block.
      rewrite Hs, Hidle, Hx. simpl.
      destruct (off_if_active Led1 _) as [t1 w1].
      destruct (off_if_active Led2 _) as [t2 w2]. reflexivity.
    + subst o. unfold monitor_tick, shutdown_block, idle_block.
      rewrite Hs, Hidle, Hx. simpl.
      destruct (off_if_active Led1 _) as [t1 w1].
      destruct (off_if_active Led2 _) as [t2 w2]. reflexivity.
Qed.

(** C3, as stated, fails: after 1000 s without activity and without a
    client, with the flag clear, both conditions hold, yet the idle forcing
    does not come before the power-off; it comes after it. *)
Lemma idle_forcing_after_poweroff_example :
  shutdown_condition tick_both = true ∧
  idle_condition tick_both = true ∧
  precedes is_idle_log is_poweroff (effects (monitor_tick false tick_both)) = false ∧
  precedes is_poweroff is_idle_log (effects (monitor_tick false tick_both)) = true.
Proof. vm_compute. done. Qed.

Lemma shutdown_precedes_idle_forcing_witness :
  shutdown_condition tick_both = true ∧
  let o := monitor_tick false tick_both in
  idle_condition tick_both = true ∧
  poweroffs (effects o) = 1 ∧
  (idle_forcings (effects o) = 1 ↔
     poweroff_exits_0 tick_both = true ∧ false = false) ∧
  (idle_forcings (effects o) = 1 →
     precedes is_poweroff is_idle_log (effects o) = true ∧
     precedes is_idle_log is_poweroff (effects o) = false ∧
     led1 (after o) = false ∧ led2 (after o) = false).
Proof.
  split; [reflexivity|].
  apply (shutdown_precedes_idle_forcing false tick_both). reflexivity.
Defined.

(** When the power-off command fails, the iteration ends there: the idle
    block is not reached and the loop is over. *)
Lemma failed_poweroff_ends_loop (flag : bool) (i : tick_in) (rest : list tick_in) :
  shutdown_condition i = true → poweroff_exits_0 i = false →
  idle_forcings (effects (monitor_tick flag i)) = 0 ∧
  length (monitor_loop flag (i :: rest)) = 1.
Proof.
  intros Hs Hx. destruct (monitor_tick_spec flag i) as (_ & Hc & Hf & _).
  rewrite Hs, Hx in Hc. simpl in Hc. rewrite Hc, andb_false_r in Hf.
  split; [done|]. simpl.
  unfold completed in Hc. by destruct (ended (monitor_tick flag i)).
Qed.

(** ** shutdown_monitor, the loop *)

(** The flag an iteration starts with: [False] at first, afterwards what
    the iteration before it found for the idle condition. *)
Lemma monitor_loop_lookup (ins : list tick_in) (flag : bool) (k : nat) (o : tick_out) :
  monitor_loop flag ins !! k = Some o →
  ∃ i, ins !! k = Some i ∧
       o = monitor_tick
             (match k with
              | O => flag
              | S k' => from_option idle_condition false (ins !! k')
              end) i.
Proof.
  revert flag k. induction ins as [|a rest IH]; intros flag k H; [done|].
  destruct k as [|k'].
  - simpl in H. injection H as <-. by exists a.
  - simpl in H.
    destruct (monitor_tick_spec flag a) as (_ & _ & _ & Hflag & _).
    destruct (ended (monitor_tick flag a)) as [f|x] eqn:E; [|done].
    specialize (Hflag f eq_refl). subst f.
    apply IH in H as (i & Hi & ->). exists i. split; [done|].
    by destruct k'.
Qed.

(** The loop reaches iteration [k] when every iteration before it came to
    its end: none of them met the shutdown condition with a power-off
    command that fails. *)
Lemma monitor_loop_reaches (ins : list tick_in) (flag : bool) (k : nat) (i : tick_in) :
  ins !! k = Some i →
  (∀ j ij, j < k → ins !! j = Some ij →
     shutdown_condition ij = false ∨ poweroff_exits_0 ij = true) →
  is_Some (monitor_loop flag ins !! k).
Proof.
  revert flag k. induction ins as [|a rest IH]; intros flag k Hi Hbefore; [done|].
  destruct k as [|k']; [by eexists|].
  simpl in Hi. simpl.
  destruct (monitor_tick_spec flag a) as (_ & Hc & _).
  assert (completed (monitor_tick flag a) = true) as Hdone.
  { rewrite Hc. destruct (Hbefore 0 a) as [->| ->]; [lia|done|done|].
    apply orb_true_r. }
  unfold completed in Hdone.
  destruct (ended (monitor_tick flag a)) as [f|x]; [|done].
  apply IH; [done|]. intros j ij Hj Hij. apply (Hbefore (S j) ij); [lia|done].
Qed.

(** C2, amended. In every run of the monitor loop, every iteration the loop
    reaches (the power-off commands of the iterations before it, if any were
    issued, returned) is carried out, and in it: with a connected client the
    power-off command is not issued, whatever the idle time; it is issued
    only when the idle time exceeds 900 s and no client is connected, and
    then exactly once in that iteration. Iterations before it that issued
    the command do not change this: nothing is latched. *)
Theorem shutdown_fires_on_each_qualifying_tick
  (ins : list tick_in) (k : nat) (i : tick_in) :
  ins !! k = Some i →
  (∀ j ij, j < k → ins !! j = Some ij →
     shutdown_condition ij = false ∨ poweroff_exits_0 ij = true) →
  ∃ o, shutdown_monitor ins !! k = Some o ∧
       (status (seen i) = true → poweroffs (effects o) = 0) ∧
       (poweroffs (effects o) ≠ 0 →
          (T_shutdown < duration i)%Q ∧ status (seen i) = false) ∧
       ((T_shutdown < duration i)%Q ∧ status (seen i) = false →
          poweroffs (effects o) = 1).
Proof.
  intros Hi Hbefore.
  destruct (monitor_loop_reaches ins false k i Hi Hbefore) as [o Ho].
  exists o. split; [done|].
  apply monitor_loop_lookup in Ho as (i' & Hi' & ->).
  assert (i' = i) as -> by congruence.
  apply monitor_tick_poweroffs.
Qed.

Lemma shutdown_fires_on_each_qualifying_tick_witness :
  ∃ o, shutdown_monitor [tick_both; tick_both_again] !! 1 = Some o ∧
       (status (seen tick_both_again) = true → poweroffs (effects o) = 0) ∧
       (poweroffs (effects o) ≠ 0 →
          (T_shutdown < duration tick_both_again)%Q ∧
          status (seen tick_both_again) = false) ∧
       ((T_shutdown < duration tick_both_again)%Q ∧
        status (seen tick_both_again) = false →
          poweroffs (effects o) = 1).
Proof.
  apply (shutdown_fires_on_each_qualifying_tick
           [tick_both; tick_both_again] 1 tick_both_again eq_refl).
  intros j ij Hj Hij. destruct j as [|j]; [|lia].
  injection Hij as <-. right. reflexivity.
Defined.

(** C4, amended. In every run of the monitor loop, every iteration the loop
    reaches (no iteration before it met the shutdown condition with a
    power-off command that fails) is carried out, and in it: the iteration
    comes to its end unless it meets the shutdown condition and its
    power-off command fails; idle mode is entered in it exactly when it is
    the first iteration of an idle episode and comes to its end; the forcing
    leaves both status LEDs off; an iteration that finds the idle time at
    300 s or below ends with the flag cleared, and every iteration that
    comes to its end leaves the flag equal to the idle condition it found,
    so the next episode forces again. *)
Theorem idle_forcing_once_per_episode
  (ins : list tick_in) (k : nat) (i : tick_in) :
  ins !! k = Some i →
  (∀ j ij, j < k → ins !! j = Some ij →
     shutdown_condition ij = false ∨ poweroff_exits_0 ij = true) →
  ∃ o, shutdown_monitor ins !! k = Some o ∧
       completed o = negb (shutdown_condition i) || poweroff_exits_0 i ∧
       idle_forcings (effects o) =
         (if episode_start ins k &&
             (negb (shutdown_condition i) || poweroff_exits_0 i)
          then 1 else 0) ∧
       (idle_forcings (effects o) = 1 →
          led1 (after o) = false ∧ led2 (after o) = false) ∧
       (idle_condition i = false → ended o = Returned false) ∧
       (∀ f, ended o = Returned f → f = idle_condition i).
Proof.
  intros Hi Hbefore.
  destruct (monitor_loop_reaches ins false k i Hi Hbefore) as [o Ho].
  exists o. split; [done|].
  apply monitor_loop_lookup in Ho as (i' & Hi' & ->).
  assert (i' = i) as -> by congruence.
  set (flag := match k with O => false | S k' => _ end).
  destruct (monitor_tick_spec flag i) as (_ & Hc & Hf & Hflag & Hleds).
  split; [done|]. split; [|split; [done|split; [|done]]].
  - rewrite Hf, Hc. f_equal. f_equal. unfold episode_start. rewrite Hi. f_equal.
    subst flag. destruct k as [|k']; [done|].
    destruct (lookup_lt_is_Some_2 ins k') as [j Hj].
    { apply lookup_lt_Some in Hi. lia. }
    by rewrite Hj.
  - intros Hidle.
    assert (shutdown_condition i = false) as Hs.
    { destruct (shutdown_condition i) eqn:E; [|done].
      apply shutdown_implies_idle in E. congruence. }
    rewrite Hs in Hc. simpl in Hc. unfold completed in Hc.
    destruct (ended (monitor_tick flag i)) as [f|x] eqn:E; [|done].
    by rewrite (Hflag f eq_refl), Hidle.
Qed.

Lemma idle_forcing_once_per_episode_witness :
  let ins := [tick_idle; tick_idle; tick_active; tick_both] in
  ∃ o, shutdown_monitor ins !! 3 = Some o ∧
       completed o = true ∧ idle_forcings (effects o) = 1.
Proof.
  intros ins.
  destruct (idle_forcing_once_per_episode ins 3 tick_both eq_refl)
    as (o & Ho & Hc & Hf & _).
  - intros j ij Hj Hij.
    destruct j as [|[|[|j]]]; [| | |lia]; injection Hij as <-;
      left; reflexivity.
  - exists o. split; [exact Ho|]. split; [exact Hc|exact Hf].
Defined.

(** C4, as stated, fails: an idle episode whose first iteration also meets
    the shutdown condition, with a power-off command that fails. The episode
    starts at iteration 0, the loop ends in it, and idle mode is never
    entered. *)
Lemma idle_episode_without_forcing_example :
  let ins := [tick_poweroff_fails; tick_idle] in
  episode_start ins 0 = true ∧
  (idle_forcings ∘ effects) <$> shutdown_monitor ins = [0].
Proof. vm_compute. done. Qed.

(** ** capture_image *)

Ltac capture_cases e :=
  unfold capture_image, try_capture, with_camera_lock, camera_section,
    update_timer;
  destruct (autofocus_cycle e) as [[|]|?] eqn:?;
  destruct (capture_file e) as [?|?] eqn:?;
  simpl.

(** The function returns [None] on every path; nothing is raised. *)
Lemma capture_image_returns (e : capture_env) (w : world) :
  (capture_image e w).2 = Returned tt.
Proof. by capture_cases e. Qed.

(** The run refreshes [last_ping] and the timer; the [status] flag of the
    client is left as it was. *)
Lemma capture_image_liveness (e : capture_env) (w : world) :
  let w' := (capture_image e w).1.2 in
  last_ping w' = Some (ping_clock e) ∧ timer w' = timer_clock e ∧
  status w' = status w.
Proof. by capture_cases e. Qed.

(** [/ping], by contrast, sets the flag. *)
Lemma ping_sets_status (d : datetime) (t : Q) (w : world) :
  status (ping d t w).1.2 = true ∧ timer (ping d t w).1.2 = t.
Proof. done. Qed.

(** The camera lock is taken once and released once, in that order. *)
Lemma capture_image_lock_balanced (e : capture_env) (w : world) :
  let tr := (capture_image e w).1.1 in
  length (List.filter is_acquire_camera tr) = 1 ∧
  length (List.filter is_release_camera tr) = 1 ∧
  precedes is_acquire_camera is_release_camera tr = true ∧
  camera_locked (capture_image e w).1.2 = false.
Proof. by capture_cases e. Qed.


(** C7. When the autofocus cycle returns [False], the run does not end
    there: the warning is logged, [capture_file] is called next with the
    path of the run, and the function returns. If the still is written it
    is in the image directory and reported, with no error logged; if the
    still capture raises, that is the error logged. *)
Theorem autofocus_failure_not_fatal (e : capture_env) (w : world) :
  autofocus_cycle e = Returned false →
  let tr := (capture_image e w).1.1 in
  let w' := (capture_image e w).1.2 in
  let path := capture_path (name_clock e) in
  (∃ pre post,
     tr = pre ++ [AutofocusCycle;
                  Log WARNING "Autofocus cycle failed or was skipped.";
                  CaptureFile path] ++ post) ∧
  (capture_image e w).2 = Returned tt ∧
  (∀ img, capture_file e = Returned img →
     files w' !! path = Some img ∧
     Log INFO ("Captured: " +:+ path) ∈ tr ∧ errors_logged tr = 0) ∧
  (∀ x, capture_file e = Raised x →
     Log ERROR ("Capture failed: " +:+ exn_str x) ∈ tr).
Proof.
  intros Haf. unfold capture_image, try_capture, with_camera_lock,
    camera_section, update_timer. rewrite Haf.
  destruct (capture_file e) as [img|x] eqn:Hcap; simpl.
  - split.
    { exists [SetLastPing (ping_clock e); SetTimer (timer_clock e); LedOn Ledc;
              AcquireCamera; Log INFO "Starting autofocus cycle for capture..."].
      eexists. reflexivity. }
    split; [done|]. split; [|done].
    intros img' [= <-]. split; [apply lookup_insert_eq|].
    split; [|done]. set_solver.
  - split.
    { exists [SetLastPing (ping_clock e); SetTimer (timer_clock e); LedOn Ledc;
              AcquireCamera; Log INFO "Starting autofocus cycle for capture..."].
      eexists. reflexivity. }
    split; [done|]. split; [done|].
    intros x' [= <-]. set_solver.
Qed.

Lemma autofocus_failure_not_fatal_witness :
  autofocus_cycle env_unfocused = Returned false ∧
  files (capture_image env_unfocused sample_world).1.2
    !! capture_path sample_clock = Some [255; 216].
Proof.
  split; [reflexivity|].
  pose proof (autofocus_failure_not_fatal env_unfocused sample_world eq_refl)
    as (_ & _ & H & _).
  exact (proj1 (H [255; 216] eq_refl)).
Defined.

(** C5, amended. In every run in which [autofocus_cycle] or [capture_file]
    raises: the lock is released, then the error is logged, once; the
    function returns [None], as it does after a successful capture, and
    raises nothing; the run ends with the 0.5 s hold and the indicator LED
    switched off; the camera lock is left free. *)
Theorem capture_failure_contained (e : capture_env) (w : world) :
  capture_raises e = true →
  let tr := (capture_image e w).1.1 in
  let w' := (capture_image e w).1.2 in
  (∃ x pre,
     tr = pre ++ [ReleaseCamera; Log ERROR ("Capture failed: " +:+ exn_str x);
                  SleepFor (1 # 2); LedOff Ledc]) ∧
  errors_logged tr = 1 ∧
  (capture_image e w).2 = Returned tt ∧
  ledc w' = false ∧
  camera_locked w' = false.
Proof.
  unfold capture_raises. capture_cases e; intros H; try discriminate H.
  all: split; [|done].
  - eexists _, [_; _; _; _; _; _; _; _]. reflexivity.
  - eexists _, [_; _; _; _; _; _; _; _]. reflexivity.
  - eexists _, [_; _; _; _; _; _]. reflexivity.
  - eexists _, [_; _; _; _; _; _]. reflexivity.
Qed.

Lemma capture_failure_contained_witness :
  capture_raises env_capture_raises = true ∧
  ledc (capture_image env_capture_raises sample_world).1.2 = false ∧
  camera_locked (capture_image env_capture_raises sample_world).1.2 = false.
Proof.
  split; [reflexivity|].
  pose proof (capture_failure_contained env_capture_raises sample_world eq_refl)
    as (_ & _ & _ & H1 & H2).
  exact (conj H1 H2).
Defined.

(** C5, as stated, fails: the autofocus cycle fails (returns [False]), one of
    steps 3-5, yet no error is logged, the still is written and reported,
    and the value returned is the one a run with a raising capture returns
    as well. *)
Lemma failed_autofocus_not_surfaced_example :
  let tr := (capture_image env_unfocused sample_world).1.1 in
  let w' := (capture_image env_unfocused sample_world).1.2 in
  step_fails env_unfocused = true ∧
  errors_logged tr = 0 ∧
  tr !! 9 = Some (Log INFO "Captured: img/RF_pic_2024-03-07T09_05_42.jpeg") ∧
  files w' !! "img/RF_pic_2024-03-07T09_05_42.jpeg" = Some [255; 216] ∧
  (capture_image env_unfocused sample_world).2
    = (capture_image env_capture_raises sample_world).2.
Proof. vm_compute. done. Qed.

(** ** File names *)

Lemma strftime_same_second (d1 d2 : datetime) :
  same_second d1 d2 → strftime d1 = strftime d2.
Proof.
  intros (Hy & Hm & Hd & HH & HM & HS). unfold strftime.
  by rewrite Hy, Hm, Hd, HH, HM, HS.
Qed.

(** The path is the image directory, [RF_pic_], the clock reading down to
    the second, [.jpeg]. *)
Lemma capture_path_shape (d : datetime) :
  capture_path d = "img/RF_pic_" +:+ strftime d +:+ ".jpeg".
Proof. reflexivity. Qed.

(** C10. The path of a capture is a function of the clock reading of
    line 138 down to the second: [img/RF_pic_%Y-%m-%dT%H_%M_%S.jpeg]. Two
    runs whose readings fall within the same second use the same path, and
    when both write their still, the image directory afterwards holds the
    later image under that path and is what it would be had only the later
    run taken place. *)
Theorem same_second_capture_overwrites
  (e1 e2 : capture_env) (w : world) (img1 img2 : image) :
  same_second (name_clock e1) (name_clock e2) →
  captures e1 img1 → captures e2 img2 →
  let path := capture_path (name_clock e1) in
  let w1 := (capture_image e1 w).1.2 in
  let w2 := (capture_image e2 w1).1.2 in
  path = "img/RF_pic_" +:+ strftime (name_clock e1) +:+ ".jpeg" ∧
  capture_path (name_clock e2) = path ∧
  files w1 !! path = Some img1 ∧
  files w2 !! path = Some img2 ∧
  files w2 = <[path := img2]> (files w).
Proof.
  intros Hsame [[s1 Haf1] Hc1] [[s2 Haf2] Hc2] path w1 w2.
  assert (capture_path (name_clock e2) = path) as Hpath.
  { subst path. rewrite !capture_path_shape.
    by rewrite (strftime_same_second _ _ Hsame). }
  assert (files w1 = <[path := img1]> (files w)) as Hw1.
  { subst w1 path. unfold capture_image, try_capture, with_camera_lock,
      camera_section, update_timer. rewrite Haf1, Hc1. by destruct s1. }
  assert (files w2 = <[path := img2]> (files w1)) as Hw2.
  { subst w2. rewrite <- Hpath. generalize w1. intros w0.
    unfold capture_image, try_capture, with_camera_lock,
      camera_section, update_timer. rewrite Haf2, Hc2. by destruct s2. }
  split; [apply capture_path_shape|]. split; [done|].
  rewrite Hw2, Hw1. rewrite insert_insert_eq.
  by rewrite !lookup_insert_eq.
Qed.

Lemma same_second_capture_overwrites_witness :
  same_second (name_clock env_unfocused) (name_clock env_second_shot) ∧
  captures env_unfocused [255; 216] ∧
  captures env_second_shot [255; 217] ∧
  files (capture_image env_second_shot
           (capture_image env_unfocused sample_world).1.2).1.2
    !! capture_path sample_clock = Some [255; 217].
Proof.
  assert (same_second (name_clock env_unfocused) (name_clock env_second_shot))
    as H1 by (repeat split).
  assert (captures env_unfocused [255; 216]) as H2
    by (split; [by exists false|reflexivity]).
  assert (captures env_second_shot [255; 217]) as H3
    by (split; [by exists true|reflexivity]).
  split; [exact H1|]. split; [exact H2|]. split; [exact H3|].
  pose proof (same_second_capture_overwrites
                env_unfocused env_second_shot sample_world _ _ H1 H2 H3)
    as (_ & _ & _ & H & _).
  exact H.
Defined.

(** The microseconds are the only part of the reading the name ignores:
    the two sample readings differ, their paths do not. *)
Lemma sample_clocks_share_path :
  sample_clock ≠ sample_clock_later ∧
  capture_path sample_clock = capture_path sample_clock_later.
Proof. split; [discriminate|reflexivity]. Qed.

(** ** Status reads *)

(** A toggle request does reset the idle timer. *)
Lemma toggle_led1_touches_timer (now : Q) (w : world) :
  timer (toggle_led1_route now w).1.2 = now.
Proof. reflexivity. Qed.

(** C9. A passive status read ([/device_status], [/led1_status],
    [/led2_status], [/uv_status]) leaves the timer as it found it: the idle
    time read at any instant after the request is what it would have been
    without it. The request has no effect at all on the globals. *)
Theorem status_read_keeps_timer (r : status_read) (w : world) :
  let w' := (serve_status_read r w).1.2 in
  timer w' = timer w ∧
  (∀ now, idle_duration now w' = idle_duration now w) ∧
  w' = w ∧ (serve_status_read r w).1.1 = [].
Proof. by destruct r. Qed.

(** ** Pools: counting and mutual exclusion *)

Section TallyFacts.
Context {T : Type} (p : T -> bool).

Lemma tally_app (l1 l2 : list T) :
  tally p (l1 ++ l2) = tally p l1 + tally p l2.
Proof. unfold tally. by rewrite sum_list_with_app. Qed.

Lemma tally_insert (l : list T) (i : nat) (t t' : T) :
  l !! i = Some t →
  tally p (<[i := t']> l) + (if p t then 1 else 0)
    = tally p l + (if p t' then 1 else 0).
Proof.
  revert i. induction l as [|a l IH]; intros i Hi; [done|].
  destruct i as [|i]; simpl in Hi.
  - injection Hi as ->. unfold tally. simpl. lia.
  - specialize (IH i Hi). unfold tally in *. simpl. lia.
Qed.

Lemma tally_lookup (l : list T) (i : nat) (t : T) :
  l !! i = Some t → p t = true → 1 ≤ tally p l.
Proof.
  revert i. induction l as [|a l IH]; intros i Hi Hp; [done|].
  destruct i as [|i]; simpl in Hi; unfold tally in *; simpl.
  - injection Hi as ->. rewrite Hp. lia.
  - specialize (IH i Hi Hp). lia.
Qed.

Lemma tally_none (l : list T) :
  (∀ i t, l !! i = Some t → p t = false) → tally p l = 0.
Proof.
  induction l as [|a l IH]; intros H; [done|]. unfold tally in *. simpl.
  rewrite (H 0 a eq_refl), IH; [done|].
  intros i t Hi. exact (H (S i) t Hi).
Qed.

Lemma tally_filter (l : list T) : tally p l = length (List.filter p l).
Proof.
  induction l as [|a l IH]; [done|]. unfold tally in *. simpl.
  destruct (p a); simpl; lia.
Qed.
End TallyFacts.

Section PoolFacts.
Context {T R C : Type}.
Variable start : R -> T.
Variable step : C -> bool -> T -> option (bool * T * list event).
Variable holding : T -> bool.

(** A fresh thread is outside the critical section. *)
Hypothesis start_outside : ∀ r, holding (start r) = false.

(** A step moves the lock with the thread: taking it on the way in (which
    needs it free), freeing it on the way out, leaving it alone otherwise. *)
Hypothesis step_lock : ∀ c l t l' t' evs,
  step c l t = Some (l', t', evs) →
  (holding t = true → l = true) →
  (if l' then 1 else 0) + (if holding t then 1 else 0)
    = (if l then 1 else 0) + (if holding t' then 1 else 0).

Lemma perform_exclusive (a : action R C) (s : pool T) :
  exclusive holding s → exclusive holding (perform start step a s).
Proof.
  unfold exclusive, holders. intros Hs. destruct a as [r|i c]; simpl.
  - rewrite tally_app, Hs. unfold tally. simpl. rewrite start_outside. lia.
  - destruct (threads s !! i) as [t|] eqn:Hi; [|done].
    destruct (step c (lock s) t) as [[[l' t'] evs]|] eqn:Hstep; [|done].
    simpl. pose proof (tally_insert holding _ _ _ t' Hi) as Hins.
    apply step_lock in Hstep.
    + destruct l', (lock s), (holding t), (holding t'); simpl in *; lia.
    + intros Hh. pose proof (tally_lookup holding _ _ _ Hi Hh).
      destruct (lock s); [done|lia].
Qed.

Lemma exec_exclusive (sched : list (action R C)) (s : pool T) :
  exclusive holding s → exclusive holding (exec start step sched s).
Proof.
  revert s. induction sched as [|a rest IH]; intros s Hs; [done|].
  simpl. apply IH. by apply perform_exclusive.
Qed.

Lemma exec_app (sched1 sched2 : list (action R C)) (s : pool T) :
  exec start step (sched1 ++ sched2) s
    = exec start step sched2 (exec start step sched1 s).
Proof.
  revert s. induction sched1 as [|a rest IH]; intros s; [done|].
  simpl. apply IH.
Qed.
End PoolFacts.

(** ** camera_lock *)

Lemma camera_step_lock c l t l' t' evs :
  camera_step c l t = Some (l', t', evs) →
  (camera_holding t = true → l = true) →
  (if l' then 1 else 0) + (if camera_holding t then 1 else 0)
    = (if l then 1 else 0) + (if camera_holding t' then 1 else 0).
Proof.
  intros Hstep Hl.
  destruct t, c, l;
    repeat match goal with b : bool |- _ => destruct b end;
    simplify_eq/=; try done; by specialize (Hl eq_refl).
Qed.

Lemma camera_exec_exclusive (sched : list (action client fate)) :
  exclusive camera_holding (camera_exec sched).
Proof.
  apply exec_exclusive; [by intros []|apply camera_step_lock|done].
Qed.

(** A thread inside [with camera_lock] can always move, on either fate of the
    call it makes; each move brings it closer to the end of the [with], and
    the move that takes it out frees the lock. *)
Lemma camera_holder_leaves (c : fate) (l : bool) (t : camera_thread) :
  camera_holding t = true →
  ∃ l' t' evs,
    camera_step c l t = Some (l', t', evs) ∧
    inside t' < inside t ∧
    (camera_holding t' = false → l' = false).
Proof.
  intros Hh. destruct t, c; try discriminate Hh;
    repeat match goal with b : bool |- _ => destruct b end;
    simpl; eexists _, _, _; (split; [reflexivity|]); simpl;
    (split; [lia|done]).
Qed.

Lemma camera_holders_length (s : pool camera_thread) :
  length (camera_holders s) = holders camera_holding s.
Proof.
  unfold camera_holders, holders. by rewrite length_fmap, tally_filter.
Qed.

(** C1. After any interleaving of any number of streaming producers and
    capture runs, started at any time: at most one thread is inside
    [with camera_lock], it is a streamer or a capturer, and the lock is
    taken exactly when there is one. A thread inside can always take its
    next step, whether the camera call returns or raises; each step brings
    it closer to the end of the [with], and once it is outside the lock is
    free. *)
Theorem camera_mutual_exclusion (sched : list (action client fate)) :
  let s := camera_exec sched in
  length (camera_holders s) ≤ 1 ∧
  (camera_holders s = [] ∨ camera_holders s = [HStreamer]
   ∨ camera_holders s = [HCapturer]) ∧
  (lock s = true ↔ length (camera_holders s) = 1) ∧
  (∀ i t c, threads s !! i = Some t → camera_holding t = true →
     let s' := perform camera_start camera_step (Run i c) s in
     ∃ t', threads s' !! i = Some t' ∧ inside t' < inside t ∧
           (camera_holding t' = false →
              lock s' = false ∧ camera_holders s' = [])) ∧
  ((∀ i t, threads s !! i = Some t → camera_over t = true) → lock s = false).
Proof.
  intros s. pose proof (camera_exec_exclusive sched) as Hex. fold s in Hex.
  unfold exclusive in Hex. pose proof (camera_holders_length s) as Hlen.
  assert (length (camera_holders s) ≤ 1) as Hle.
  { rewrite Hlen, Hex. destruct (lock s); lia. }
  split; [done|]. split; [|split; [|split]].
  - destruct (camera_holders s) as [|[] [|k rest]]; simpl in Hle; auto; lia.
  - rewrite Hlen, Hex. destruct (lock s); split; (done || lia).
  - intros i t c Hi Hh s'.
    destruct (camera_holder_leaves c (lock s) t Hh) as (l' & t' & evs & Hstep & Hin & Hout).
    assert (exclusive camera_holding s') as Hex'.
    { apply perform_exclusive; [by intros []|apply camera_step_lock|done]. }
    subst s'. unfold perform in *. rewrite Hi, Hstep in *. simpl in *.
    exists t'. split.
    { apply list_lookup_insert_eq. by apply lookup_lt_Some in Hi. }
    split; [done|]. intros Ht'. specialize (Hout Ht'). subst l'.
    split; [done|]. apply nil_length_inv.
    rewrite camera_holders_length. exact Hex'.
  - intros Hover. unfold holders in Hex. rewrite tally_none in Hex.
    + by destruct (lock s).
    + intros i t Hi. specialize (Hover i t Hi). by destruct t.
Qed.

(** The thread model and [capture_image] agree on what a capture run does to
    the camera: a capturer scheduled on its own journals the camera effects
    of the function, in the same order. *)
Lemma capturer_alone_matches (e : capture_env) (w : world) :
  snd <$> journal (camera_exec (capturer_alone e))
    = List.filter is_camera_event (capture_image e w).1.1.
Proof.
  unfold capturer_alone, camera_exec. capture_cases e; reflexivity.
Qed.

(** ** blink_lock *)

Lemma blink_step_lock c l t l' t' evs :
  blink_step c l t = Some (l', t', evs) →
  (blinking t = true → l = true) →
  (if l' then 1 else 0) + (if blinking t then 1 else 0)
    = (if l then 1 else 0) + (if blinking t' then 1 else 0).
Proof.
  intros Hstep Hl.
  destruct t as [|[|n] [|]| |], l; simplify_eq/=; try done;
    by specialize (Hl eq_refl).
Qed.

Lemma blink_exec_exclusive (sched : list (action unit unit)) :
  exclusive blinking (blink_exec sched).
Proof.
  apply exec_exclusive; [done|apply blink_step_lock|done].
Qed.

Lemma logged_app (p : event -> bool) (j1 j2 : list (nat * event)) :
  logged p (j1 ++ j2) = logged p j1 + logged p j2.
Proof. unfold logged. by rewrite List.filter_app, length_app. Qed.

Lemma perform_blink_accounts (a : action unit unit) (s : pool blink_thread) :
  blink_accounts s → blink_accounts (perform blink_start blink_step a s).
Proof.
  unfold blink_accounts. intros (Hw & Hb & Hr). destruct a as [[]|i []]; simpl.
  - rewrite !tally_app. unfold tally at 2 4 6 8. simpl. lia.
  - destruct (threads s !! i) as [t|] eqn:Hi; [|done].
    destruct (blink_step () (lock s) t) as [[[l' t'] evs]|] eqn:Hstep; [|done].
    simpl. rewrite !logged_app.
    pose proof (tally_insert is_completed _ _ _ t' Hi) as Hc.
    pose proof (tally_insert blinking _ _ _ t' Hi) as Hl.
    pose proof (tally_insert is_dropped _ _ _ t' Hi) as Hd.
    destruct t as [|[|n] [|]| |], (lock s); simplify_eq/=;
      unfold logged in *; simpl; lia.
Qed.

Lemma blink_exec_accounts (sched : list (action unit unit)) :
  blink_accounts (blink_exec sched).
Proof.
  unfold blink_exec.
  assert (blink_accounts (idle_pool : pool blink_thread)) as H0 by done.
  revert H0. generalize (idle_pool : pool blink_thread).
  induction sched as [|a rest IH]; intros s Hs; [done|].
  simpl. apply IH. by apply perform_blink_accounts.
Qed.

(** Every [blink()] call adds one worker, nothing else does. *)
Lemma blink_exec_workers (sched : list (action unit unit)) (s : pool blink_thread) :
  length (threads (exec blink_start blink_step sched s))
    = length (threads s) + length (List.filter is_trigger sched).
Proof.
  revert s. induction sched as [|a rest IH]; intros s; [simpl; lia|].
  simpl. rewrite IH. destruct a as [[]|i []]; simpl.
  - rewrite length_app. simpl. lia.
  - destruct (threads s !! i) as [t|]; [|done].
    destruct (blink_step () (lock s) t) as [[[l' t'] evs]|]; [|done].
    simpl. by rewrite length_insert.
Qed.

Lemma blink_workers_partition (l : list blink_thread) :
  length l = tally is_pending l + tally blinking l
             + tally is_completed l + tally is_dropped l.
Proof.
  induction l as [|t l IH]; [done|].
  unfold tally in *. destruct t; simpl; lia.
Qed.

(** C8, amended. In every interleaving of [blink()] calls and worker steps:
    at most one worker is in a blink sequence, and the lock is taken exactly
    then. A call only starts a worker. A worker whose lock attempt finds a
    sequence in progress is dropped: lock, LED and the other workers stay as
    they are, nothing is raised, and the worker never moves again; a worker
    whose attempt finds the lock free starts a sequence. The completed
    sequences, plus the one that may be running, are the successful
    attempts; their number is bounded by, and in general smaller than, the
    number of calls. *)
Theorem blink_single_flight (sched : list (action unit unit)) :
  let s := blink_exec sched in
  tally blinking (threads s) = (if lock s then 1 else 0) ∧
  perform blink_start blink_step trigger s
    = {| lock := lock s; threads := threads s ++ [BTry]; journal := journal s |} ∧
  (∀ i, threads s !! i = Some BTry →
     perform blink_start blink_step (Run i tt) s
       = if lock s
         then {| lock := true; threads := <[i := BDropped]> (threads s);
                 journal := journal s ++ [(i, TryAcquireBlink false)] |}
         else {| lock := true; threads := <[i := BLoop 6 false]> (threads s);
                 journal := journal s ++ [(i, TryAcquireBlink true)] |}) ∧
  (∀ c l, blink_step c l BDropped = None) ∧
  tally is_completed (threads s) + tally blinking (threads s)
    = logged is_window (journal s) ∧
  tally is_completed (threads s) = logged is_release_blink (journal s) ∧
  tally is_dropped (threads s) = logged is_busy (journal s) ∧
  length (threads s) = length (List.filter is_trigger sched) ∧
  logged is_window (journal s) + tally is_dropped (threads s)
    + tally is_pending (threads s) = length (threads s).
Proof.
  intros s.
  pose proof (blink_exec_exclusive sched) as Hex.
  pose proof (blink_exec_accounts sched) as (Hw & Hb & Hr).
  pose proof (blink_workers_partition (threads s)) as Hpart.
  fold s in Hex, Hw, Hb, Hr. unfold exclusive, holders in Hex.
  split; [done|]. split; [done|]. split.
  { intros i Hi. unfold perform. rewrite Hi. simpl. by destruct (lock s). }
  split; [done|]. split; [done|]. split; [done|]. split; [done|]. split.
  - subst s. unfold blink_exec. by rewrite blink_exec_workers.
  - lia.
Qed.

(** C8, as stated, fails: [blink()] is called while a sequence is in
    progress (the lock is taken, one worker is blinking); the running
    sequence ends before the new worker makes its attempt, and the new
    worker then blinks a full sequence of its own. Two calls, two completed
    sequences. *)
Lemma trigger_during_sequence_blinks_example :
  let before := blink_exec blink_almost_done in
  let s := blink_exec (blink_almost_done ++ [trigger] ++ blink_late_start) in
  lock before = true ∧
  threads before = [BLoop 0 false] ∧
  threads s = [BCompleted; BCompleted] ∧
  length (List.filter is_led_event (effects_of 1 s)) = 12.
Proof. vm_compute. done. Qed.

(** A worker that makes its attempt during the sequence is dropped: two
    calls, one completed sequence. *)
Lemma trigger_dropped_example :
  let s := blink_exec ([trigger; trigger] ++ run_worker 0 5 ++ run_worker 1 3
                       ++ run_worker 0 9) in
  threads s = [BCompleted; BDropped] ∧
  effects_of 1 s = [TryAcquireBlink false] ∧
  logged is_window (journal s) = 1.
Proof. vm_compute. done. Qed.

(** * Further properties *)

(** ** The power monitor leaves everything but the status LEDs alone *)

Lemma warning_blink_frame (n : nat) (w : world) :
  let w' := (warning_blink n w).2 in
  timer w' = timer w ∧ last_ping w' = last_ping w ∧ status w' = status w ∧
  ledc w' = ledc w ∧ camera_locked w' = camera_locked w ∧ files w' = files w.
Proof.
  revert w. induction n as [|n IH]; intros w; [done|].
  simpl. specialize (IH (led_toggle Led2 (led_toggle Led1 w))).
  destruct (warning_blink n _) as [tr w2]. simpl in *. exact IH.
Qed.

Lemma idle_block_frame (flag : bool) (i : tick_in) (w : world) :
  let w' := (idle_block flag i w).1.2 in
  timer w' = timer w ∧ last_ping w' = last_ping w ∧ status w' = status w ∧
  ledc w' = ledc w ∧ camera_locked w' = camera_locked w ∧ files w' = files w.
Proof.
  unfold idle_block, off_if_active.
  destruct (idle_condition i), flag; simpl; try done.
  destruct (led1 w); simpl; destruct (led2 w); done.
Qed.

Lemma monitor_tick_keeps (flag : bool) (i : tick_in) :
  let o := monitor_tick flag i in
  (timer (after o) = timer (seen i) ∧ last_ping (after o) = last_ping (seen i) ∧
   status (after o) = status (seen i) ∧ ledc (after o) = ledc (seen i) ∧
   camera_locked (after o) = camera_locked (seen i) ∧
   files (after o) = files (seen i)) ∧
  (idle_condition i = false →
     effects o = [SleepFor 5] ∧ after o = seen i ∧ ended o = Returned false).
Proof.
  split.
  - unfold monitor_tick, shutdown_block.
    destruct (shutdown_condition i).
    + pose proof (warning_blink_frame 5 (seen i)) as Hb.
      destruct (warning_blink 5 (seen i)) as [tr w1].
      destruct (poweroff_exits_0 i); [|exact Hb].
      pose proof (idle_block_frame flag i w1) as Hi.
      destruct (idle_block flag i w1) as [[tr2 w2] f2]. simpl in *.
      destruct Hb as (? & ? & ? & ? & ? & ?), Hi as (? & ? & ? & ? & ? & ?).
      repeat split; congruence.
    + pose proof (idle_block_frame flag i (seen i)) as Hi.
      destruct (idle_block flag i (seen i)) as [[tr2 w2] f2]. exact Hi.
  - intros Hidle. unfold monitor_tick, shutdown_block, idle_block.
    assert (shutdown_condition i = false) as ->.
    { destruct (shutdown_condition i) eqn:E; [|done].
      apply shutdown_implies_idle in E. congruence. }
    by rewrite Hidle.
Qed.

(** X1. An iteration of [shutdown_monitor] writes to nothing but the two status
    LEDs: the timer, the client status, the indicator LED, the camera lock
    and the image directory are as it found them. An iteration that finds
    the idle time at 300 s or below does nothing at all after its sleep and
    ends with the idle flag cleared. *)
Theorem monitor_tick_frame (flag : bool) (i : tick_in) :
  let o := monitor_tick flag i in
  (timer (after o) = timer (seen i) ∧ last_ping (after o) = last_ping (seen i) ∧
   status (after o) = status (seen i) ∧ ledc (after o) = ledc (seen i) ∧
   camera_locked (after o) = camera_locked (seen i) ∧
   files (after o) = files (seen i)) ∧
  (idle_condition i = false →
     effects o = [SleepFor 5] ∧ after o = seen i ∧ ended o = Returned false).
Proof. exact (monitor_tick_keeps flag i). Qed.

(** X2. When the shutdown fires on a device that is already in idle mode, the
    warning blink, five toggles, leaves each status LED in the state
    opposite to the one it had, and idle mode is not entered again: LEDs
    that idle mode had switched off are on when the power-off command is
    issued. *)
Theorem shutdown_when_idle_inverts_leds (i : tick_in) :
  shutdown_condition i = true →
  let o := monitor_tick true i in
  led1 (after o) = negb (led1 (seen i)) ∧
  led2 (after o) = negb (led2 (seen i)) ∧
  idle_forcings (effects o) = 0 ∧
  poweroffs (effects o) = 1.
Proof.
  intros Hs o.
  destruct (monitor_tick_spec true i) as (Hp & _ & Hf & _).
  fold o in Hp, Hf. rewrite Hs in Hp. rewrite andb_false_r in Hf.
  split; [|split; [|done]].
  - subst o. unfold monitor_tick, shutdown_block, idle_block.
    rewrite Hs, (shutdown_implies_idle i Hs).
    destruct (poweroff_exits_0 i); simpl; by destruct (led1 (seen i)).
  - subst o. unfold monitor_tick, shutdown_block, idle_block.
    rewrite Hs, (shutdown_implies_idle i Hs).
    destruct (poweroff_exits_0 i); simpl; by destruct (led2 (seen i)).
Qed.

Lemma shutdown_when_idle_inverts_leds_witness :
  shutdown_condition tick_both = true ∧
  led1 (after (monitor_tick true tick_both)) = false.
Proof.
  split; [reflexivity|].
  exact (proj1 (shutdown_when_idle_inverts_leds tick_both eq_refl)).
Defined.

(** ** Sequences of calls *)

Lemma serve_all_cons (o : op) (ops : list op) (dv : device) :
  serve_all (o :: ops) dv = serve_all ops (serve o dv).
Proof. reflexivity. Qed.

Lemma serve_all_app (ops1 ops2 : list op) (dv : device) :
  serve_all (ops1 ++ ops2) dv = serve_all ops2 (serve_all ops1 dv).
Proof. unfold serve_all. apply foldl_app. Qed.

(** What a call does to the client status. *)
Lemma serve_client_status (o : op) (dv : device) :
  let w := globals dv in
  let w' := globals (serve o dv) in
  match o with
  | OpPing d _ => status w' = true ∧ last_ping w' = Some d
  | OpCapture e => status w' = status w ∧ last_ping w' = Some (ping_clock e)
  | OpClientTick now =>
      last_ping w' = last_ping w ∧
      status w' =
        match last_ping w with
        | Some d => status w && negb (timeout_duration <? datetime_sub now d)%Z
        | None => status w
        end
  | _ => status w' = status w ∧ last_ping w' = last_ping w
  end.
Proof.
  destruct o as [d t|r|t|t|t|t|t|e|now|now ok]; simpl; try done.
  - by destruct r.
  - unfold capture_button_held.
    pose proof (capture_image_liveness e (globals dv)) as (H1 & _ & H3).
    by rewrite H1, H3.
  - unfold client_tick, client_check. destruct (last_ping (globals dv)) as [d|] eqn:E; [|done].
    destruct (timeout_duration <? datetime_sub now d)%Z; simpl.
    + by rewrite andb_false_r.
    + by rewrite andb_true_r.
  - destruct (power_thread dv) as [flag|x]; [|done]. simpl.
    by destruct (monitor_tick_keeps flag
                   {| current_time := now; seen := globals dv;
                      poweroff_exits_0 := ok |}) as ((_ & H2 & H3 & _) & _).
Qed.

(** X3. Whatever the calls and their order since the module was loaded: a
    client counts as connected only if a ping has been recorded. *)
Theorem connected_client_has_pinged (t0 : Q) (ops : list op) :
  let w := globals (serve_all ops (boot t0)) in
  status w = true → is_Some (last_ping w).
Proof.
  simpl.
  assert (status (globals (boot t0)) = true →
          is_Some (last_ping (globals (boot t0)))) as H0 by done.
  revert H0. generalize (boot t0).
  induction ops as [|o ops IH]; intros dv Hdv; [done|].
  rewrite serve_all_cons. apply IH.
  pose proof (serve_client_status o dv) as Hs. simpl in Hs.
  destruct o; destruct Hs as [Hst Hlp]; rewrite ?Hst, ?Hlp; try done.
  destruct (last_ping (globals dv)); [done|]. done.
Qed.

(** X4. The client status turns true in [/ping] and nowhere else: through any
    sequence of calls without a ping, a client that is not connected stays
    so. Captures, which refresh [last_ping], do not connect it. *)
Theorem only_ping_connects (ops : list op) (dv : device) :
  status (globals dv) = false →
  Forall (λ o, is_ping o = false) ops →
  status (globals (serve_all ops dv)) = false.
Proof.
  revert dv. induction ops as [|o ops IH]; intros dv Hdv Hops; [done|].
  rewrite serve_all_cons. inversion Hops as [|? ? Ho Hrest]; subst.
  apply IH; [|done].
  pose proof (serve_client_status o dv) as Hs. simpl in Hs.
  destruct o; try discriminate Ho; destruct Hs as [Hst Hlp];
    rewrite ?Hst, ?Hlp; try done.
  rewrite Hdv. by destruct (last_ping (globals dv)).
Qed.

Lemma only_ping_connects_witness :
  status (globals (boot 0)) = false ∧
  Forall (λ o, is_ping o = false)
    [OpCapture env_unfocused; OpClientTick sample_clock_later; OpToggle1 20] ∧
  status (globals (serve_all [OpCapture env_unfocused;
                              OpClientTick sample_clock_later; OpToggle1 20]
                     (boot 0))) = false.
Proof.
  assert (Forall (λ o, is_ping o = false)
            [OpCapture env_unfocused; OpClientTick sample_clock_later;
             OpToggle1 20]) as H by (repeat constructor).
  split; [reflexivity|]. split; [exact H|].
  exact (only_ping_connects _ (boot 0) eq_refl H).
Defined.

Lemma connected_client_has_pinged_witness :
  status (globals (serve_all [OpPing sample_clock 5] (boot 0))) = true ∧
  is_Some (last_ping (globals (serve_all [OpPing sample_clock 5] (boot 0)))).
Proof.
  split; [reflexivity|].
  exact (connected_client_has_pinged 0 [OpPing sample_clock 5] eq_refl).
Defined.

(** A call that touches the timer stores its clock reading there; no call
    but an iteration of [shutdown_monitor] changes the state of that loop. *)
Lemma serve_touch (o : op) (t : Q) (dv : device) :
  touch_time o = Some t →
  timer (globals (serve o dv)) = t ∧
  power_thread (serve o dv) = power_thread dv.
Proof.
  destruct o as [d t'|r|t'|t'|t'|t'|t'|e|now|now ok]; simpl;
    intros [= <-]; try done.
  unfold capture_button_held.
  by destruct (capture_image_liveness e (globals dv)) as (_ & -> & _).
Qed.

Lemma power_tick_after_touch
  (o : op) (t now : Q) (exits_0 flag : bool) (dv : device) :
  touch_time o = Some t →
  power_thread dv = Returned flag →
  (now - t <= T_idle)%Q →
  let dv1 := serve o dv in
  let dv2 := serve (OpPowerTick now exits_0) dv1 in
  globals dv2 = globals dv1 ∧
  power_thread dv2 = Returned false ∧
  history dv2 = history dv1 ++ [SleepFor 5].
Proof.
  intros Ho Hflag Hnow dv1 dv2.
  destruct (serve_touch o t dv Ho) as [Htimer Hthread]. fold dv1 in Htimer, Hthread.
  subst dv2. simpl. rewrite Hthread, Hflag.
  set (i := {| current_time := now; seen := globals dv1;
               poweroff_exits_0 := exits_0 |}).
  destruct (monitor_tick_keeps flag i) as (_ & H); simpl.
  destruct H as (He & Ha & Hend).
  { unfold idle_condition, duration. simpl. rewrite Htimer.
    by apply py_gt_false. }
  by rewrite He, Ha, Hend.
Qed.

(** X5. Any request, button press or capture that touches the timer keeps the
    device out of idle mode for the next 300 s: an iteration of the power
    monitor that runs within that time does nothing but sleep, whatever the
    idle flag was before, and leaves the flag cleared. *)
Theorem touch_keeps_device_active
  (o : op) (t now : Q) (exits_0 flag : bool) (dv : device) :
  touch_time o = Some t →
  power_thread dv = Returned flag →
  (now - t <= T_idle)%Q →
  let dv1 := serve o dv in
  let dv2 := serve (OpPowerTick now exits_0) dv1 in
  globals dv2 = globals dv1 ∧
  power_thread dv2 = Returned false ∧
  history dv2 = history dv1 ++ [SleepFor 5].
Proof. exact (power_tick_after_touch o t now exits_0 flag dv). Qed.

Lemma touch_keeps_device_active_witness :
  touch_time (OpToggle1 100) = Some 100%Q ∧
  power_thread (boot 0) = Returned false ∧
  (400 - 100 <= T_idle)%Q ∧
  power_thread (serve (OpPowerTick 400 true) (serve (OpToggle1 100) (boot 0)))
    = Returned false.
Proof.
  assert (400 - 100 <= T_idle)%Q as H by (vm_compute; discriminate).
  split; [reflexivity|]. split; [reflexivity|]. split; [exact H|].
  exact (proj1 (proj2 (touch_keeps_device_active
                         (OpToggle1 100) 100 400 true false (boot 0)
                         eq_refl eq_refl H))).
Defined.

(** ** The client monitor and the power monitor together *)

Lemma poweroffs_history_app (dv : device) (tr : list event) :
  poweroffs (history dv ++ tr) = poweroffs (history dv) + poweroffs tr.
Proof. apply poweroffs_app. Qed.

Lemma fresh_client_ticks (d : datetime) (nows : list datetime) (dv : device) :
  last_ping (globals dv) = Some d →
  Forall (λ n, (datetime_sub n d <= timeout_duration)%Z) nows →
  let dv' := serve_all (OpClientTick <$> nows) dv in
  globals dv' = globals dv ∧ power_thread dv' = power_thread dv ∧
  poweroffs (history dv') = poweroffs (history dv).
Proof.
  revert dv. induction nows as [|n nows IH]; intros dv Hlp Hall; [done|].
  inversion Hall as [|? ? Hn Hrest]; subst.
  rewrite fmap_cons, serve_all_cons.
  assert (serve (OpClientTick n) dv
          = {| globals := globals dv; power_thread := power_thread dv;
               history := history dv ++ [SleepFor 25] |}) as Hserve.
  { simpl. unfold client_tick, client_check. rewrite Hlp.
    assert ((timeout_duration <? datetime_sub n d)%Z = false) as ->
      by (apply Z.ltb_ge; lia).
    done. }
  rewrite Hserve.
  specialize (IH {| globals := globals dv; power_thread := power_thread dv;
                    history := history dv ++ [SleepFor 25] |} Hlp Hrest).
  destruct IH as (Hg & Ht & Hp). simpl in *.
  rewrite Hg, Ht, Hp. by rewrite poweroffs_app.
Qed.

(** X6. A client that has pinged blocks the automatic shutdown for as long as
    the client monitor finds the ping no more than 60 s old: after the ping
    and any number of such checks, an iteration of the power monitor issues
    no power-off, however long the device has been idle. *)
Theorem fresh_ping_blocks_shutdown
  (d : datetime) (t now : Q) (nows : list datetime) (exits_0 : bool)
  (dv : device) :
  Forall (λ n, (datetime_sub n d <= timeout_duration)%Z) nows →
  let dv' := serve_all (OpPing d t :: (OpClientTick <$> nows)
                        ++ [OpPowerTick now exits_0]) dv in
  poweroffs (history dv') = poweroffs (history dv) ∧
  status (globals dv') = true.
Proof.
  intros Hall. rewrite serve_all_cons, serve_all_app.
  set (dv1 := serve (OpPing d t) dv).
  assert (last_ping (globals dv1) = Some d) as Hlp by done.
  destruct (fresh_client_ticks d nows dv1 Hlp Hall) as (Hg & Ht & Hp).
  set (dv2 := serve_all (OpClientTick <$> nows) dv1) in *.
  unfold serve_all. simpl.
  assert (poweroffs (history dv1) = poweroffs (history dv)) as Hp1.
  { subst dv1. simpl. by rewrite poweroffs_app. }
  destruct (power_thread dv2) as [flag|x]; simpl.
  - set (i := {| current_time := now; seen := globals dv2;
                 poweroff_exits_0 := exits_0 |}).
    destruct (monitor_tick_spec flag i) as (Hpo & _).
    destruct (monitor_tick_keeps flag i) as ((_ & _ & Hst & _) & _).
    assert (shutdown_condition i = false) as Hs.
    { unfold shutdown_condition. simpl. rewrite Hg. subst dv1. simpl.
      apply andb_false_r. }
    rewrite Hs in Hpo. rewrite poweroffs_app, Hpo, Hp, Hp1.
    split; [lia|]. rewrite Hst. simpl. by rewrite Hg.
  - rewrite Hp, Hp1. split; [done|]. by rewrite Hg.
Qed.

Lemma fresh_ping_blocks_shutdown_witness :
  Forall (λ n, (datetime_sub n leap_evening <= timeout_duration)%Z)
    [march_morning] ∧
  status (globals (serve_all (OpPing leap_evening 0
                              :: (OpClientTick <$> [march_morning])
                              ++ [OpPowerTick 5000 true]) (boot 0))) = true.
Proof.
  assert (Forall (λ n, (datetime_sub n leap_evening <= timeout_duration)%Z)
            [march_morning]) as H.
  { repeat constructor. vm_compute. discriminate. }
  split; [exact H|].
  exact (proj2 (fresh_ping_blocks_shutdown leap_evening 0 5000 [march_morning]
                  true (boot 0) H)).
Defined.

(** X7. Once the client monitor finds the last ping more than 60 s old, the
    client no longer holds the shutdown off: after a ping and a check made
    more than 60 s after it, an iteration of the power monitor whose test
    [duration > 900] (line 110) succeeds issues the power-off command,
    once. *)
Theorem stale_client_allows_shutdown
  (d nowd : datetime) (t now : Q) (exits_0 flag : bool) (dv : device) :
  power_thread dv = Returned flag →
  (timeout_duration < datetime_sub nowd d)%Z →
  let dv2 := serve_all [OpPing d t; OpClientTick nowd] dv in
  let i := {| current_time := now; seen := globals dv2;
              poweroff_exits_0 := exits_0 |} in
  py_gt (duration i) T_shutdown = true →
  let dv' := serve (OpPowerTick now exits_0) dv2 in
  poweroffs (history dv') = poweroffs (history dv) + 1 ∧
  status (globals dv') = false.
Proof.
  intros Hflag Hstale dv2 i Hlong dv'.
  assert (power_thread dv2 = Returned flag ∧ status (globals dv2) = false ∧
          poweroffs (history dv2) = poweroffs (history dv))
    as (Hthread & Hst2 & Hp2).
  { subst dv2. unfold serve_all. simpl.
    unfold client_tick, client_check. simpl.
    assert ((timeout_duration <? datetime_sub nowd d)%Z = true) as ->
      by (apply Z.ltb_lt; lia).
    simpl. split; [done|]. split; [done|]. rewrite !poweroffs_app.
    change (poweroffs [SetLastPing d; StartBlinkThread; SetTimer t]) with 0.
    change (poweroffs [SleepFor 25; Log INFO "Client timeout detected."])
      with 0.
    lia. }
  assert (dv' = {| globals := after (monitor_tick flag i);
                   power_thread := ended (monitor_tick flag i);
                   history := history dv2 ++ effects (monitor_tick flag i) |})
    as ->.
  { subst dv'. unfold serve. by rewrite Hthread. }
  destruct (monitor_tick_spec flag i) as (Hpo & _).
  destruct (monitor_tick_keeps flag i) as ((_ & _ & Hst & _) & _).
  assert (shutdown_condition i = true) as Hs.
  { unfold shutdown_condition. rewrite Hlong.
    change (status (seen i)) with (status (globals dv2)). by rewrite Hst2. }
  rewrite Hs in Hpo. cbn [history globals].
  rewrite poweroffs_app, Hpo, Hp2. split; [lia|].
  rewrite Hst. exact Hst2.
Qed.

Lemma stale_client_allows_shutdown_witness :
  let dv2 := serve_all [OpPing leap_evening 0; OpClientTick march_later]
               (boot 0) in
  power_thread (boot 0) = Returned false ∧
  (timeout_duration < datetime_sub march_later leap_evening)%Z ∧
  py_gt (duration {| current_time := 1000; seen := globals dv2;
                     poweroff_exits_0 := true |}) T_shutdown = true ∧
  poweroffs (history (serve (OpPowerTick 1000 true) dv2))
    = poweroffs (history (boot 0)) + 1.
Proof.
  intros dv2.
  assert (timeout_duration < datetime_sub march_later leap_evening)%Z as H1
    by (vm_compute; reflexivity).
  split; [reflexivity|]. split; [exact H1|]. split; [reflexivity|].
  exact (proj1 (stale_client_allows_shutdown leap_evening march_later 0 1000
                  true false (boot 0) eq_refl H1 eq_refl)).
Defined.

(** X8. After a ping, the client monitor keeps the client connected as long as
    the ping is no more than 60 s old, 60 s sharp included, and disconnects
    it, logging the timeout, at the first check that finds it older. *)
Theorem client_times_out_after_60s (d now : datetime) (t : Q) (w : world) :
  let w1 := (ping d t w).1.2 in
  ((datetime_sub now d <= timeout_duration)%Z →
     client_tick now w1 = ([SleepFor 25], w1)) ∧
  ((timeout_duration < datetime_sub now d)%Z →
     client_tick now w1
       = ([SleepFor 25; Log INFO "Client timeout detected."],
          set_status false w1)).
Proof.
  simpl. unfold client_tick, client_check. simpl. split; intros H.
  - assert ((timeout_duration <? datetime_sub now d)%Z = false) as ->
      by (apply Z.ltb_ge; lia). done.
  - assert ((timeout_duration <? datetime_sub now d)%Z = true) as ->
      by (apply Z.ltb_lt; lia). done.
Qed.

(** The difference of two clock readings follows the calendar: from
    29 February 2024, 23:59:30 it is 50 s to 00:00:20 and 61 s to 00:00:31
    on 1 March. *)
Lemma datetime_sub_across_leap_day :
  datetime_sub march_morning leap_evening = 50000000%Z ∧
  datetime_sub march_later leap_evening = 61000000%Z.
Proof. split; reflexivity. Qed.

(** X9. A capture run refreshes [last_ping], so it holds the client timeout
    off: a check of the client monitor made no more than 60 s after the run
    took its clock reading changes nothing, whether or not the client has
    pinged since. *)
Theorem capture_postpones_client_timeout
  (e : capture_env) (now : datetime) (w : world) :
  (datetime_sub now (ping_clock e) <= timeout_duration)%Z →
  client_tick now (capture_image e w).1.2
    = ([SleepFor 25], (capture_image e w).1.2).
Proof.
  intros H. unfold client_tick, client_check.
  destruct (capture_image_liveness e w) as [Hlp _]. rewrite Hlp.
  assert ((timeout_duration <? datetime_sub now (ping_clock e))%Z = false) as ->
    by (apply Z.ltb_ge; lia).
  done.
Qed.

Lemma capture_postpones_client_timeout_witness :
  (datetime_sub sample_clock_later (ping_clock env_unfocused)
     <= timeout_duration)%Z ∧
  (client_tick sample_clock_later
     (capture_image env_unfocused sample_world).1.2).1 = [SleepFor 25].
Proof.
  assert (datetime_sub sample_clock_later (ping_clock env_unfocused)
            <= timeout_duration)%Z as H by (vm_compute; discriminate).
  split; [exact H|].
  exact (f_equal fst (capture_postpones_client_timeout
                        env_unfocused sample_clock_later sample_world H)).
Defined.

(** ** What a capture run touches *)

Lemma capture_image_files (e : capture_env) (w : world) :
  let w' := (capture_image e w).1.2 in
  files w' = files w ∨
  ∃ img, files w' = <[capture_path (name_clock e) := img]> (files w).
Proof. capture_cases e; eauto. Qed.

(** X10. A capture run leaves the status LEDs and the client's connected flag as
    they were, ends with the indicator LED off and the camera lock free, and
    changes nothing in the image directory but what is stored under its own
    path. *)
Theorem capture_image_frame (e : capture_env) (w : world) :
  let w' := (capture_image e w).1.2 in
  led1 w' = led1 w ∧ led2 w' = led2 w ∧ status w' = status w ∧
  ledc w' = false ∧ camera_locked w' = false ∧
  (∀ p, p ≠ capture_path (name_clock e) → files w' !! p = files w !! p).
Proof.
  capture_cases e; repeat split; try done;
    intros p Hp; by rewrite lookup_insert_ne.
Qed.

(** X11. When the autofocus call raises, [capture_file] is not called: the
    error logged is that of the autofocus call and the image directory is
    as it was. *)
Theorem autofocus_exception_skips_capture
  (e : capture_env) (w : world) (x : exn) :
  autofocus_cycle e = Raised x →
  let tr := (capture_image e w).1.1 in
  (CaptureFile (capture_path (name_clock e)) ∉ tr) ∧
  (Log ERROR ("Capture failed: " +:+ exn_str x) ∈ tr) ∧
  errors_logged tr = 1 ∧
  files (capture_image e w).1.2 = files w.
Proof.
  intros Haf. unfold capture_image, try_capture, with_camera_lock,
    camera_section, update_timer. rewrite Haf. simpl.
  split; [|split; [|done]].
  - rewrite !not_elem_of_cons. repeat split; try done. apply not_elem_of_nil.
  - set_solver.
Qed.

Lemma autofocus_exception_skips_capture_witness :
  autofocus_cycle
    {| ping_clock := sample_clock; timer_clock := 12%Q;
       name_clock := sample_clock;
       autofocus_cycle := Raised (Exn "Camera not started");
       capture_file := Returned [255; 216] |}
    = Raised (Exn "Camera not started") ∧
  files (capture_image
           {| ping_clock := sample_clock; timer_clock := 12%Q;
              name_clock := sample_clock;
              autofocus_cycle := Raised (Exn "Camera not started");
              capture_file := Returned [255; 216] |} sample_world).1.2
    = files sample_world.
Proof.
  split; [reflexivity|].
  pose proof (autofocus_exception_skips_capture
                {| ping_clock := sample_clock; timer_clock := 12%Q;
                   name_clock := sample_clock;
                   autofocus_cycle := Raised (Exn "Camera not started");
                   capture_file := Returned [255; 216] |}
                sample_world (Exn "Camera not started") eq_refl)
    as (_ & _ & _ & H).
  exact H.
Defined.

(** What a call does to the image directory. *)
Lemma serve_files (o : op) (dv : device) :
  let fs := files (globals dv) in
  let fs' := files (globals (serve o dv)) in
  fs' = fs ∨
  ∃ e img, o = OpCapture e ∧ fs' = <[capture_path (name_clock e) := img]> fs.
Proof.
  destruct o as [d t|r|t|t|t|t|t|e|now|now ok]; simpl; auto.
  - left. by destruct r.
  - unfold capture_button_held.
    destruct (capture_image_files e (globals dv)) as [H|[img H]]; [by left|].
    right. by exists e, img.
  - left. unfold client_tick, client_check.
    destruct (last_ping (globals dv)); [|done].
    by destruct (_ <? _)%Z.
  - left. destruct (power_thread dv) as [flag|x]; [|done]. simpl.
    by destruct (monitor_tick_keeps flag
                   {| current_time := now; seen := globals dv;
                      poweroff_exits_0 := ok |}) as ((_ & _ & _ & _ & _ & H) & _).
Qed.

(** X12. Nothing the device does removes an image: through any sequence of
    calls, every path that held an image still holds one, and a path that
    no capture run of the sequence writes to holds what it held before. *)
Theorem images_are_never_removed (ops : list op) (dv : device) (p : string) :
  let fs := files (globals dv) in
  let fs' := files (globals (serve_all ops dv)) in
  (is_Some (fs !! p) → is_Some (fs' !! p)) ∧
  (p ∉ captured_paths ops → fs' !! p = fs !! p).
Proof.
  revert dv. induction ops as [|o ops IH]; intros dv; [done|].
  rewrite serve_all_cons. specialize (IH (serve o dv)).
  destruct IH as [IH1 IH2].
  pose proof (serve_files o dv) as Hsf. cbv zeta in Hsf.
  destruct Hsf as [Heq|(e & img & -> & Heq)].
  - split.
    + intros H. apply IH1. by rewrite Heq.
    + intros Hp. rewrite IH2, Heq; [done|].
      intros Hin. apply Hp. destruct o; simpl; try done.
      by apply elem_of_cons; right.
  - split.
    + intros H. apply IH1. rewrite Heq.
      destruct (decide (capture_path (name_clock e) = p)) as [->|Hne].
      * by rewrite lookup_insert_eq.
      * by rewrite lookup_insert_ne.
    + intros Hp.
      change (captured_paths (OpCapture e :: ops))
        with (capture_path (name_clock e) :: captured_paths ops) in Hp.
      apply not_elem_of_cons in Hp as [Hne Hp].
      rewrite IH2, Heq; [|done]. by rewrite lookup_insert_ne.
Qed.

(** ** File names, once more *)

Lemma str_length_app (a b : string) :
  String.length (a +:+ b) = String.length a + String.length b.
Proof. induction a as [|c a IH]; simpl; [done|]. by rewrite IH. Qed.

Lemma str_app_inj (a b c d : string) :
  String.length a = String.length b → a +:+ c = b +:+ d → a = b ∧ c = d.
Proof.
  revert b. induction a as [|x a IH]; intros [|y b] Hlen H; try discriminate Hlen.
  - done.
  - simpl in H. injection H as -> H. injection Hlen as Hlen.
    destruct (IH b Hlen H) as [-> ->]. done.
Qed.

Lemma zero_padded_length (width n : nat) :
  String.length (zero_padded width n) = width.
Proof.
  revert n. induction width as [|width IH]; intros n; [done|].
  simpl. rewrite str_length_app, IH. simpl. lia.
Qed.

Lemma digit_inj (n m : nat) : digit n = digit m → n mod 10 = m mod 10.
Proof.
  unfold digit. intros H. apply (f_equal nat_of_ascii) in H.
  pose proof (Nat.mod_upper_bound n 10). pose proof (Nat.mod_upper_bound m 10).
  rewrite !nat_ascii_embedding in H by lia. lia.
Qed.

Lemma zero_padded_inj (width n m : nat) :
  n < 10 ^ width → m < 10 ^ width →
  zero_padded width n = zero_padded width m → n = m.
Proof.
  revert n m. induction width as [|width IH]; intros n m Hn Hm H.
  - simpl in Hn, Hm. lia.
  - simpl in H. apply str_app_inj in H as [H1 H2];
      [|by rewrite !zero_padded_length].
    injection H2 as H2. apply digit_inj in H2.
    assert (n / 10 = m / 10) as Hq.
    { apply IH; [| |done]; apply Nat.Div0.div_lt_upper_bound;
        by rewrite <- Nat.pow_succ_r'. }
    rewrite (Nat.div_mod_eq n 10), (Nat.div_mod_eq m 10). lia.
Qed.

Lemma strftime_length (d : datetime) : String.length (strftime d) = 19.
Proof.
  unfold strftime. by rewrite !str_length_app, !zero_padded_length.
Qed.

Lemma glued_inj (a b c d sep : string) :
  String.length a = String.length b →
  a +:+ sep +:+ c = b +:+ sep +:+ d → a = b ∧ c = d.
Proof.
  intros Hlen H. apply str_app_inj in H as [-> H]; [|done].
  by apply str_app_inj in H as [_ ->].
Qed.

Lemma strftime_inj (d1 d2 : datetime) :
  valid_datetime d1 → valid_datetime d2 →
  strftime d1 = strftime d2 → same_second d1 d2.
Proof.
  intros (Hy1 & Hm1 & Hd1 & HH1 & HM1 & HS1 & _)
         (Hy2 & Hm2 & Hd2 & HH2 & HM2 & HS2 & _) H.
  unfold strftime in H.
  repeat (apply glued_inj in H as [? H]; [|by rewrite !zero_padded_length]).
  unfold same_second.
  repeat split; (eapply zero_padded_inj; [| |eassumption]); simpl; lia.
Qed.

(** X13. The path of a still determines the six fields of the clock reading
    it is named after: for datetime values with a four-digit year, equal
    paths mean equal year, month, day, hour, minute and second. (The
    reading is naive local time; whether two readings with the same fields
    are the same moment is not in the path.) *)
Theorem capture_path_determines_fields (d1 d2 : datetime) :
  valid_datetime d1 → valid_datetime d2 →
  four_digit_year d1 → four_digit_year d2 →
  capture_path d1 = capture_path d2 → same_second d1 d2.
Proof.
  intros Hv1 Hv2 _ _ H. rewrite !capture_path_shape in H.
  apply str_app_inj in H as [_ H]; [|done].
  apply str_app_inj in H as [H _]; [|by rewrite !strftime_length].
  by apply strftime_inj.
Qed.

Lemma capture_path_determines_fields_witness :
  valid_datetime sample_clock ∧ valid_datetime sample_clock_later ∧
  four_digit_year sample_clock ∧ four_digit_year sample_clock_later ∧
  capture_path sample_clock = capture_path sample_clock_later ∧
  same_second sample_clock sample_clock_later.
Proof.
  assert (valid_datetime sample_clock) as H1 by (unfold valid_datetime; simpl; lia).
  assert (valid_datetime sample_clock_later) as H2
    by (unfold valid_datetime; simpl; lia).
  assert (four_digit_year sample_clock) as H3
    by (unfold four_digit_year; simpl; lia).
  assert (four_digit_year sample_clock_later) as H4
    by (unfold four_digit_year; simpl; lia).
  split; [exact H1|]. split; [exact H2|]. split; [exact H3|].
  split; [exact H4|]. split; [reflexivity|].
  exact (capture_path_determines_fields _ _ H1 H2 H3 H4 eq_refl).
Defined.

(** ** The listing filter *)

Lemma str_lower_app (a b : string) :
  str_lower (a +:+ b) = str_lower a +:+ str_lower b.
Proof. induction a as [|c a IH]; simpl; [done|]. by rewrite IH. Qed.

Lemma str_endswith_app (suffix a : string) :
  str_endswith suffix (a +:+ suffix) = true.
Proof.
  induction a as [|c a IH].
  - change (EmptyString +:+ suffix) with suffix.
    destruct suffix as [|c s]; [done|].
    cbn [str_endswith]. by rewrite String.eqb_refl.
  - change (String c a +:+ suffix) with (String c (a +:+ suffix)).
    cbn [str_endswith]. rewrite IH. by destruct (String.eqb _ _).
Qed.

(** Upper and lower case do not matter to the filter. *)
Lemma is_image_name_lower (name : string) :
  is_image_name (str_lower name) = is_image_name name.
Proof.
  unfold is_image_name. f_equal; [f_equal; [f_equal|]|];
    f_equal; induction name as [|c name IH]; simpl; try done;
    (f_equal; [|done]); unfold lower_ascii;
    destruct ((65 <=? nat_of_ascii c) && (nat_of_ascii c <=? 90)) eqn:E; try (by rewrite E);
    apply andb_true_iff in E as [E1%Nat.leb_le E2%Nat.leb_le];
    rewrite nat_ascii_embedding by lia;
    (destruct ((65 <=? nat_of_ascii c + 32) && (nat_of_ascii c + 32 <=? 90)) eqn:E';
     [apply andb_true_iff in E' as [_ E'%Nat.leb_le]; lia|done]).
Qed.

(** ** list_files *)

(** What the loop over the directory collects: name and modification time
    of every image file, in the order of the scan; or the exception of a
    [stat] on an image file. *)
Lemma collect_stats_spec (entries : list dir_entry) :
  match collect_stats entries with
  | Returned stats =>
      Forall2 (λ s en, s.1 = entry_name en ∧ entry_mtime en = Returned s.2)
        stats (image_entries entries)
  | Raised x => ∃ en, en ∈ image_entries entries ∧ entry_mtime en = Raised x
  end.
Proof.
  induction entries as [|en rest IH]; simpl; [constructor|].
  unfold image_entries in *. simpl.
  destruct (entry_is_file en && is_image_name (entry_name en)); [|exact IH].
  destruct (entry_mtime en) as [m|x] eqn:Hm.
  - destruct (collect_stats rest) as [l|x].
    + by constructor.
    + destruct IH as (en' & Hin & Hx). exists en'. split; [|done].
      by apply elem_of_cons; right.
  - exists en. split; [apply elem_of_cons; by left|done].
Qed.

Lemma collect_stats_readable (entries : list dir_entry) :
  readable entries →
  ∃ stats, collect_stats entries = Returned stats ∧
           stats.*1 = entry_name <$> image_entries entries.
Proof.
  intros Hr. pose proof (collect_stats_spec entries) as Hs.
  destruct (collect_stats entries) as [stats|x].
  - exists stats. split; [done|].
    induction Hs as [|s en stats ens [Hn _] _ IH]; [done|].
    by rewrite !fmap_cons, Hn, IH.
  - destruct Hs as (en & Hin & Hx). destruct (Hr en Hin) as [m Hm]. congruence.
Qed.

Lemma insert_newest_perm (x : string * Q) (l : list (string * Q)) :
  insert_newest x l ≡ₚ x :: l.
Proof.
  induction l as [|y rest IH]; simpl; [done|].
  destruct (Qle_bool y.2 x.2); [done|].
  rewrite IH. apply Permutation_swap.
Qed.

Lemma sort_newest_first_perm (l : list (string * Q)) :
  sort_newest_first l ≡ₚ l.
Proof.
  induction l as [|x rest IH]; simpl; [done|].
  by rewrite insert_newest_perm, IH.
Qed.

Lemma insert_newest_sorted (x : string * Q) (l : list (string * Q)) :
  newest_first l → newest_first (insert_newest x l).
Proof.
  induction l as [|y rest IH]; simpl; [intros _; split; [|done]|].
  { intros z Hz. by apply elem_of_nil in Hz. }
  intros [Hy Hrest]. destruct (Qle_bool y.2 x.2) eqn:E.
  - apply Qle_bool_iff in E. simpl. split; [|done].
    intros z [->|Hz]%elem_of_cons; [done|].
    eapply Qle_trans; [by apply Hy|done].
  - simpl. split; [|by apply IH].
    intros z Hz. rewrite insert_newest_perm in Hz.
    apply elem_of_cons in Hz as [->|Hz]; [|by apply Hy].
    apply Qlt_le_weak, Qnot_le_lt. intros Hle.
    apply Qle_bool_iff in Hle. congruence.
Qed.

Lemma sort_newest_first_sorted (l : list (string * Q)) :
  newest_first (sort_newest_first l).
Proof.
  induction l as [|x rest IH]; simpl; [done|]. by apply insert_newest_sorted.
Qed.

(** Entries the sort has no reason to move stay where they are. *)
Lemma sort_newest_first_id (l : list (string * Q)) :
  newest_first l → sort_newest_first l = l.
Proof.
  induction l as [|x rest IH]; simpl; [done|].
  intros [Hx Hrest]. rewrite (IH Hrest).
  destruct rest as [|y rest']; [done|]. simpl.
  assert (Qle_bool y.2 x.2 = true) as ->; [|done].
  apply Qle_bool_iff, Hx. apply elem_of_cons. by left.
Qed.

Lemma py_slice_window {A : Type} (l : list A) (start n : Z) :
  (0 ≤ start)%Z → (0 ≤ n)%Z →
  py_slice l start (start + n) = take (Z.to_nat n) (drop (Z.to_nat start) l).
Proof.
  intros Hs Hn. unfold py_slice, slice_bound.
  assert ((start <? 0)%Z = false) as -> by lia.
  assert ((start + n <? 0)%Z = false) as -> by lia.
  destruct (decide (start ≤ Z.of_nat (length l))%Z) as [Hle|Hgt].
  - rewrite (Z.min_l start) by done.
    destruct (decide (start + n ≤ Z.of_nat (length l))%Z) as [Hle2|Hgt2].
    + rewrite (Z.min_l (start + n)) by done. f_equal. lia.
    + rewrite (Z.min_r (start + n)) by lia.
      rewrite !take_ge; [done| |]; rewrite length_drop; lia.
  - rewrite (Z.min_r start) by lia.
    rewrite (drop_ge l (Z.to_nat start)) by lia.
    rewrite (drop_ge l (Z.to_nat _)) by lia. by rewrite !take_nil.
Qed.


Lemma sorted_names_perm (entries : list dir_entry) :
  readable entries →
  sorted_names entries ≡ₚ entry_name <$> image_entries entries.
Proof.
  intros Hr. unfold sorted_names.
  destruct (collect_stats_readable entries Hr) as (stats & -> & <-).
  by rewrite sort_newest_first_perm.
Qed.

(** The answer to a request with integer arguments on a readable directory. *)
Lemma list_files_listing (page per_page : Z) (entries : list dir_entry) :
  readable entries →
  list_files (request_for page per_page entries)
    = ([], Listing page per_page (length (image_entries entries))
             (py_slice (sorted_names entries)
                ((page - 1) * per_page) ((page - 1) * per_page + per_page))).
Proof.
  intros Hr. unfold list_files, list_files_body, sorted_names. simpl.
  destruct (collect_stats_readable entries Hr) as (stats & Hc & Hn).
  rewrite Hc. do 2 f_equal.
  rewrite length_fmap, (Permutation_length (sort_newest_first_perm stats)).
  by rewrite <- (length_fmap fst), Hn, length_fmap.
Qed.

Lemma image_entries_spec (entries : list dir_entry) (en : dir_entry) :
  en ∈ image_entries entries ↔
  en ∈ entries ∧ entry_is_file en = true ∧ is_image_name (entry_name en) = true.
Proof.
  unfold image_entries. rewrite !list_elem_of_In, List.filter_In.
  by rewrite andb_true_iff.
Qed.


Lemma sample_dir_readable : readable sample_dir.
Proof.
  intros en Hin. apply image_entries_spec in Hin as (Hin & _).
  repeat (apply elem_of_cons in Hin as [->|Hin]; [by eexists|]).
  by apply elem_of_nil in Hin.
Qed.


Lemma page_window (page per_page : Z) (entries : list dir_entry) :
  readable entries → (1 ≤ page)%Z → (0 ≤ per_page)%Z →
  let files := listed_files (list_files (request_for page per_page entries)).2 in
  files = take (Z.to_nat per_page)
            (drop (Z.to_nat ((page - 1) * per_page)) (sorted_names entries)) ∧
  (Z.of_nat (length files) ≤ per_page)%Z.
Proof.
  intros Hr Hp Hpp files. subst files.
  rewrite (list_files_listing page per_page entries Hr). simpl.
  rewrite py_slice_window by nia. split; [done|].
  rewrite length_take.
  apply Z.le_trans with (Z.of_nat (Z.to_nat per_page)); [|lia].
  apply Nat2Z.inj_le, Nat.le_min_l.
Qed.

(** X15. For a page number of 1 or more and a page size of 0 or more, the page
    is the window of [per_page] names that starts after the
    [(page - 1) * per_page] newest ones; it never holds more than
    [per_page] names. *)
Theorem list_files_page_window
  (page per_page : Z) (entries : list dir_entry) :
  readable entries → (1 ≤ page)%Z → (0 ≤ per_page)%Z →
  let files := listed_files (list_files (request_for page per_page entries)).2 in
  files = take (Z.to_nat per_page)
            (drop (Z.to_nat ((page - 1) * per_page)) (sorted_names entries)) ∧
  (Z.of_nat (length files) ≤ per_page)%Z.
Proof. exact (page_window page per_page entries). Qed.

Lemma list_files_page_window_witness :
  readable sample_dir ∧ (1 ≤ 2)%Z ∧ (0 ≤ 1)%Z ∧
  listed_files (list_files (request_for 2 1 sample_dir)).2 = ["old.JPG"].
Proof.
  split; [exact sample_dir_readable|]. split; [lia|]. split; [lia|].
  exact (proj1 (list_files_page_window 2 1 sample_dir sample_dir_readable
                  ltac:(lia) ltac:(lia))).
Defined.

Lemma windows_concat {A : Type} (l : list A) (k n : nat) :
  concat ((λ i, take k (drop (i * k) l)) <$> seq 0 n) = take (n * k) l.
Proof.
  induction n as [|n IH]; [by rewrite take_0|].
  rewrite seq_S, fmap_app, concat_app, IH. simpl. rewrite app_nil_r.
  rewrite take_take_drop. f_equal. lia.
Qed.

(** X16. The pages of a listing tile it: for a page size of 1 or more, pages
    1 to [n] one after the other are the [n * per_page] newest names, each
    once and in order, and all names once [n] pages are enough to hold
    them. *)
Theorem list_files_pages_tile
  (per_page n : nat) (entries : list dir_entry) :
  readable entries → 1 ≤ per_page →
  let page (i : nat) :=
    listed_files
      (list_files (request_for (Z.of_nat (S i)) (Z.of_nat per_page) entries)).2 in
  concat (page <$> seq 0 n) = take (n * per_page) (sorted_names entries) ∧
  (length (image_entries entries) ≤ n * per_page →
     concat (page <$> seq 0 n) = sorted_names entries).
Proof.
  intros Hr Hpp page.
  assert (concat (page <$> seq 0 n) = take (n * per_page) (sorted_names entries))
    as Htile.
  { rewrite <- windows_concat. f_equal. apply list_fmap_ext.
    intros _ i _. subst page. simpl.
    destruct (page_window (Z.of_nat (S i)) (Z.of_nat per_page)
                entries Hr ltac:(lia) ltac:(lia)) as [-> _].
    f_equal; [lia|]. f_equal. lia. }
  split; [done|]. intros Hn. rewrite Htile. apply take_ge.
  rewrite (Permutation_length (sorted_names_perm entries Hr)), length_fmap. lia.
Qed.

Lemma list_files_pages_tile_witness :
  readable sample_dir ∧ 1 ≤ 1 ∧
  concat ((λ i, listed_files
                  (list_files (request_for (Z.of_nat (S i)) (Z.of_nat 1)
                                 sample_dir)).2) <$> seq 0 2)
    = ["new.jpeg"; "old.JPG"].
Proof.
  split; [exact sample_dir_readable|]. split; [lia|].
  exact (proj1 (list_files_pages_tile 1 2 sample_dir sample_dir_readable
                  ltac:(lia))).
Defined.

Lemma slice_bound_nonneg (len i : Z) :
  (0 ≤ len)%Z → (0 ≤ slice_bound len i)%Z.
Proof. unfold slice_bound. destruct (i <? 0)%Z eqn:E; lia. Qed.

(** X17. Asking for nothing is no error: a page past the end of the listing,
    page 0, and a page size of 0 are each answered with an empty list of
    names and the usual total. *)
Theorem list_files_empty_pages
  (page per_page : Z) (entries : list dir_entry) :
  readable entries →
  ((1 ≤ page)%Z ∧ (0 ≤ per_page)%Z ∧
   (Z.of_nat (length (image_entries entries)) ≤ (page - 1) * per_page)%Z)
  ∨ page = 0%Z ∨ per_page = 0%Z →
  list_files (request_for page per_page entries)
    = ([], Listing page per_page (length (image_entries entries)) []).
Proof.
  intros Hr Hcase. rewrite (list_files_listing page per_page entries Hr).
  do 2 f_equal.
  assert (length (sorted_names entries) = length (image_entries entries)) as Hlen
    by (by rewrite (Permutation_length (sorted_names_perm entries Hr)), length_fmap).
  destruct Hcase as [(Hp & Hpp & Hend)|[->| ->]].
  - rewrite py_slice_window by nia. rewrite drop_ge by lia. apply take_nil.
  - unfold py_slice.
    replace ((0 - 1) * per_page + per_page)%Z with 0%Z by lia.
    set (len := Z.of_nat (length (sorted_names entries))).
    assert (slice_bound len 0 = 0%Z) as ->
      by (unfold slice_bound; simpl; lia).
    pose proof (slice_bound_nonneg len ((0 - 1) * per_page) ltac:(lia)).
    replace (Z.to_nat (0 - slice_bound len ((0 - 1) * per_page))) with 0 by lia.
    apply take_0.
  - rewrite Z.mul_0_r, Z.add_0_r. unfold py_slice.
    rewrite Z.sub_diag. apply take_0.
Qed.

Lemma list_files_empty_pages_witness :
  readable sample_dir ∧
  list_files (request_for 7 10 sample_dir) = ([], Listing 7 10 2 []).
Proof.
  split; [exact sample_dir_readable|].
  apply (list_files_empty_pages 7 10 sample_dir sample_dir_readable).
  left. simpl. lia.
Defined.

(** X18. A negative page size is not refused: page 1 of size [-k] lists all
    names but the [k] oldest. *)
Theorem list_files_negative_page_size (k : nat) (entries : list dir_entry) :
  readable entries → 1 ≤ k →
  listed_files (list_files (request_for 1 (- Z.of_nat k) entries)).2
    = take (length (image_entries entries) - k) (sorted_names entries).
Proof.
  intros Hr Hk. rewrite (list_files_listing 1 _ entries Hr). simpl.
  assert (length (sorted_names entries) = length (image_entries entries)) as Hlen
    by (by rewrite (Permutation_length (sorted_names_perm entries Hr)), length_fmap).
  replace ((1 - 1) * - Z.of_nat k)%Z with 0%Z by lia.
  unfold py_slice, slice_bound. rewrite Hlen.
  assert ((0 <? 0)%Z = false) as -> by done.
  assert ((0 + - Z.of_nat k <? 0)%Z = true) as -> by lia.
  rewrite Z.min_l by lia. rewrite drop_0. f_equal. lia.
Qed.

Lemma list_files_negative_page_size_witness :
  readable sample_dir ∧ 1 ≤ 1 ∧
  listed_files (list_files (request_for 1 (- Z.of_nat 1) sample_dir)).2
    = ["new.jpeg"].
Proof.
  split; [exact sample_dir_readable|]. split; [lia|].
  exact (list_files_negative_page_size 1 sample_dir sample_dir_readable
           ltac:(lia)).
Defined.

(** X19. The names are listed newest first: they are the names of the image
    files, each once, in an order in which no file comes before a file with
    a later modification time; files the scan already yields in such an
    order are listed in the order of the scan. *)
Theorem list_files_newest_first (entries : list dir_entry) :
  readable entries →
  ∃ stats sorted,
    collect_stats entries = Returned stats ∧
    sorted_names entries = sorted.*1 ∧
    sorted ≡ₚ stats ∧
    newest_first sorted ∧
    (newest_first stats → sorted = stats) ∧
    sorted_names entries ≡ₚ entry_name <$> image_entries entries.
Proof.
  intros Hr. destruct (collect_stats_readable entries Hr) as (stats & Hc & Hn).
  exists stats, (sort_newest_first stats).
  split; [done|]. split; [unfold sorted_names; by rewrite Hc|].
  split; [apply sort_newest_first_perm|].
  split; [apply sort_newest_first_sorted|].
  split; [apply sort_newest_first_id|by apply sorted_names_perm].
Qed.

Lemma list_files_newest_first_witness :
  readable sample_dir ∧ sorted_names sample_dir = ["new.jpeg"; "old.JPG"].
Proof.
  split; [exact sample_dir_readable|].
  destruct (list_files_newest_first sample_dir sample_dir_readable)
    as (stats & sorted & _).
  reflexivity.
Defined.

Lemma collect_stats_raises (entries : list dir_entry) :
  (∃ x, collect_stats entries = Raised x) ↔
  (∃ en x, en ∈ image_entries entries ∧ entry_mtime en = Raised x).
Proof.
  pose proof (collect_stats_spec entries) as Hs. split.
  - intros [x Hx]. rewrite Hx in Hs. destruct Hs as (en & Hin & Hm). eauto.
  - intros (en & x & Hin & Hm).
    destruct (collect_stats entries) as [stats|y]; [|eauto]. exfalso.
    induction Hs as [|s en' stats ens [_ Hm'] _ IH];
      [by apply elem_of_nil in Hin|].
    apply elem_of_cons in Hin as [->|Hin]; [congruence|auto].
Qed.

(** The general scan agrees with [list_files] on the directories whose
    entries all answer [is_file()]. *)
Lemma collect_stats_scan_answering (entries : list dir_entry) :
  collect_stats_scan (answering <$> entries) = collect_stats entries.
Proof.
  induction entries as [|en rest IH]; [done|].
  rewrite fmap_cons. cbn [collect_stats_scan collect_stats answering
    scan_is_file scan_name scan_mtime].
  rewrite IH. done.
Qed.

Lemma list_files_scan_answering (rq : list_request) :
  list_files_scan (answering_request rq) = list_files rq.
Proof.
  unfold list_files_scan, list_files, list_files_scan_body, list_files_body.
  cbn [answering_request scan_page_arg scan_per_page_arg scan_dir].
  destruct (int_arg (page_arg rq) 1); [|done].
  destruct (int_arg (per_page_arg rq) 10); [|done].
  destruct (scandir rq) as [entries|]; [|done].
  by rewrite collect_stats_scan_answering.
Qed.

Lemma collect_stats_scan_raises (entries : list scan_entry) :
  (∃ x, collect_stats_scan entries = Raised x) ↔
  (∃ en x, en ∈ entries ∧ entry_raises en x).
Proof.
  induction entries as [|en rest IH]; simpl.
  - split; [intros [? [=]]|]. intros (en & x & Hin & _).
    by apply elem_of_nil in Hin.
  - assert (∀ P : Prop, (P ↔ ∃ en' x, en' ∈ rest ∧ entry_raises en' x) →
              (∀ x, ¬ entry_raises en x) →
              (P ↔ ∃ en' x, en' ∈ en :: rest ∧ entry_raises en' x)) as Hskip.
    { intros P HP Hno. rewrite HP. split.
      - intros (en' & x & Hin & Hr). exists en', x.
        split; [by apply elem_of_cons; right|done].
      - intros (en' & x & [->|Hin]%elem_of_cons & Hr); [by destruct (Hno x)|].
        eauto. }
    assert (∀ x, entry_raises en x →
              ∃ en' y, en' ∈ en :: rest ∧ entry_raises en' y) as Hhere.
    { intros x Hx. exists en, x. split; [apply elem_of_cons; by left|done]. }
    destruct (scan_is_file en) as [f|x] eqn:Hf.
    + destruct (f && is_image_name (scan_name en)) eqn:Htest.
      * apply andb_true_iff in Htest as [-> Hname].
        destruct (scan_mtime en) as [m|x] eqn:Hm.
        -- destruct (collect_stats_scan rest) as [l|x].
           ++ apply Hskip.
              ** rewrite <- IH. split; intros [? [=]].
              ** intros x [H|(_ & _ & H)]; congruence.
           ++ apply Hskip.
              ** rewrite <- IH. split; eauto.
              ** intros y [H|(_ & _ & H)]; congruence.
        -- split; [intros _|eauto]. apply (Hhere x). right.
           rewrite Hf, Hm. done.
      * apply Hskip; [exact IH|].
        intros x [H|(Hf' & Hname & _)]; [congruence|].
        rewrite Hf in Hf'. injection Hf' as ->. by rewrite Hname in Htest.
    + split; [intros _|eauto]. apply (Hhere x). left. by rewrite Hf.
Qed.

Lemma list_files_scan_body_fails (rq : scan_request) :
  (∃ x, list_files_scan_body rq = Raised x) ↔ scan_fault rq.
Proof.
  unfold list_files_scan_body, scan_fault, int_arg.
  destruct (scan_page_arg rq) as [[p|x]|];
    destruct (scan_per_page_arg rq) as [[pp|y]|];
    destruct (scan_dir rq) as [entries|z];
    try (split; eauto 10; fail);
    pose proof (collect_stats_scan_raises entries) as Hc;
    (destruct (collect_stats_scan entries) as [stats|u];
     [ split; [intros [? [=]]|];
       intros [[? [=]]|[[? [=]]|[[? [=]]|(? & en & x & [= <-] & Hin & Hr)]]];
       destruct Hc as [_ [? [=]]]; eauto
     | split; [intros _|eauto];
       destruct Hc as [(en & x & ? & ?) _]; eauto 10 ]).
Qed.

Lemma list_files_scan_body_returns (rq : scan_request) (resp : list_response) :
  list_files_scan_body rq = Returned resp → ∀ msg, resp ≠ ListError msg.
Proof.
  unfold list_files_scan_body. intros H msg ->.
  destruct (int_arg (scan_page_arg rq) 1); [|done].
  destruct (int_arg (scan_per_page_arg rq) 10); [|done].
  destruct (scan_dir rq) as [entries|]; [|done].
  by destruct (collect_stats_scan entries).
Qed.

(** X20. The request fails, with status 500, in exactly these cases: an argument
    that is no integer, a directory that cannot be scanned, an entry of any
    name on which [is_file()] raises, or an image file whose [stat] fails.
    A failing [stat] of an entry that is no file, or whose name is not that
    of an image, does not matter. A failure leaves one line in the error
    log, a listing none. *)
Theorem list_files_fails_iff (rq : scan_request) :
  ((∃ msg, (list_files_scan rq).2 = ListError msg) ↔ scan_fault rq) ∧
  (scan_fault rq → errors_logged (list_files_scan rq).1 = 1) ∧
  (¬ scan_fault rq → (list_files_scan rq).1 = []).
Proof.
  pose proof (list_files_scan_body_fails rq) as Hb.
  pose proof (list_files_scan_body_returns rq) as Hr.
  unfold list_files_scan. destruct (list_files_scan_body rq) as [resp|x]; simpl.
  - assert (¬ scan_fault rq) as Hno.
    { intros H. apply Hb in H as [? [=]]. }
    split; [|split]; [|done..].
    split; [|done]. intros [msg ->]. by destruct (Hr _ eq_refl msg).
  - assert (scan_fault rq) as Hyes by (apply Hb; eauto).
    split; [|split]; [|done..]. split; eauto.
Qed.

(** An entry that is no image still has to answer [is_file()]: a symbolic
    link that loops fails the listing. *)
Lemma looping_link_fails_listing_example :
  list_files_scan {| scan_page_arg := None; scan_per_page_arg := None;
                     scan_dir := Returned dir_with_looping_link |}
    = ([Log ERROR "Error listing files: Too many levels of symbolic links"],
       ListError "Too many levels of symbolic links").
Proof. reflexivity. Qed.

(** A file that is no image is never looked at: its failing [stat] does not
    disturb the listing. *)
Lemma broken_note_is_ignored_example :
  list_files (request_for 1 10 dir_with_broken_note)
    = ([], Listing 1 10 1 ["old.JPG"]).
Proof. reflexivity. Qed.

Lemma str_app_assoc (a b c : string) : a +:+ (b +:+ c) = (a +:+ b) +:+ c.
Proof.
  induction a as [|x a IH]; [done|].
  change (String x (a +:+ (b +:+ c)) = String x ((a +:+ b) +:+ c)).
  by rewrite IH.
Qed.

(** X21. Every still the capture pipeline writes shows up in the listing: its
    path is the image directory followed by a name that passes the filter of
    [list_files], so a readable directory that holds the file lists the name
    and counts it. *)
Theorem captured_still_is_listed (d : datetime) :
  let name := "RF_pic_" +:+ strftime d +:+ ".jpeg" in
  capture_path d = IMAGE_DIRECTORY +:+ name ∧
  is_image_name name = true ∧
  ∀ entries m,
    readable entries →
    {| entry_name := name; entry_is_file := true; entry_mtime := Returned m |}
      ∈ entries →
    name ∈ sorted_names entries ∧
    1 ≤ length (image_entries entries).
Proof.
  intros name.
  assert (is_image_name name = true) as Hname.
  { unfold is_image_name. subst name.
    change ("RF_pic_" +:+ strftime d +:+ ".jpeg")
      with ("RF_pic_" +:+ (strftime d +:+ ".jpeg")).
    rewrite !str_lower_app.
    change (str_lower ".jpeg") with ".jpeg".
    change (str_lower "RF_pic_" +:+ str_lower (strftime d) +:+ ".jpeg")
      with (str_lower "RF_pic_" +:+ (str_lower (strftime d) +:+ ".jpeg")).
    rewrite str_app_assoc, str_endswith_app. by rewrite orb_true_r. }
  split; [reflexivity|]. split; [done|].
  intros entries m Hr Hin.
  assert ({| entry_name := name; entry_is_file := true;
             entry_mtime := Returned m |} ∈ image_entries entries) as Himg.
  { apply image_entries_spec. by repeat split. }
  split.
  - rewrite (sorted_names_perm entries Hr).
    apply list_elem_of_fmap. eexists. split; [|exact Himg]. done.
  - destruct (image_entries entries); [by apply elem_of_nil in Himg|simpl; lia].
Qed.

(** ** LED toggles *)

(** X22. Toggling a status LED by request or by button flips that LED, stores
    the clock reading of the call in the timer and leaves every other
    global alone; the request answers with the state the LED is left in,
    the button callback does to the globals what the request does, and a
    second toggle brings the LED back. *)
Theorem toggle_flips_one_led (t t' : Q) (w : world) :
  let r1 := toggle_led1_route t w in
  let r2 := toggle_led2_route t w in
  (r1.1.2 = set_led Led1 (negb (led1 w)) (set_timer t w) ∧
   r1.2 = [("active", JBool (negb (led1 w)))] ∧
   led1_button_pressed t w = r1.1 ∧
   led1 (toggle_led1_route t' r1.1.2).1.2 = led1 w ∧
   led2 (toggle_led1_route t' r1.1.2).1.2 = led2 w) ∧
  (r2.1.2 = set_led Led2 (negb (led2 w)) (set_timer t w) ∧
   r2.2 = [("active", JBool (negb (led2 w)))] ∧
   led2_button_pressed t w = r2.1 ∧
   led2 (toggle_led2_route t' r2.1.2).1.2 = led2 w ∧
   led1 (toggle_led2_route t' r2.1.2).1.2 = led1 w).
Proof.
  simpl. repeat split; try done; apply negb_involutive.
Qed.

(** ** The camera lock: no deadlock, no interleaved camera calls *)

Lemma tally_pos_lookup {T : Type} (p : T -> bool) (l : list T) :
  1 ≤ tally p l → ∃ j t, l !! j = Some t ∧ p t = true.
Proof.
  induction l as [|a l IH]; unfold tally in *; simpl; [lia|].
  destruct (p a) eqn:E; [by exists 0, a|].
  intros H. destruct (IH H) as (j & t & Hj & Ht). by exists (S j), t.
Qed.

(** X23. The streamers and capturers never lock each other out for good: in
    every state they can reach, a thread that has not finished can take its
    next step whatever the camera does, unless it is waiting at
    [with camera_lock]; then another thread is inside, and that thread can
    take its next step. *)
Theorem camera_no_deadlock (sched : list (action client fate)) :
  let s := camera_exec sched in
  ∀ i t, threads s !! i = Some t → camera_over t = false →
    (∀ c, is_Some (camera_step c (lock s) t)) ∨
    (lock s = true ∧ camera_holding t = false ∧
     ∃ j tj, j ≠ i ∧ threads s !! j = Some tj ∧ camera_holding tj = true ∧
             ∀ c, is_Some (camera_step c (lock s) tj)).
Proof.
  intros s i t Hi Hover.
  pose proof (camera_exec_exclusive sched) as Hex. fold s in Hex.
  unfold exclusive, holders in Hex.
  destruct (lock s) eqn:Hlock.
  - destruct (camera_holding t) eqn:Hh.
    + left. intros c.
      destruct (camera_holder_leaves c true t Hh) as (l' & t' & evs & -> & _).
      done.
    + destruct (tally_pos_lookup camera_holding (threads s)) as (j & tj & Hj & Htj);
        [lia|].
      destruct t; try discriminate Hover; try discriminate Hh;
        try (left; intros []; by eexists);
        right; (split; [done|]); (split; [done|]);
        exists j, tj; (split; [intros ->; congruence|]);
        (split; [done|]); (split; [done|]); intros c;
        destruct (camera_holder_leaves c true tj Htj)
          as (l' & t' & evs & -> & _); done.
  - left. intros c. destruct t, c; try discriminate Hover; by eexists.
Qed.

Lemma camera_no_deadlock_witness :
  let s := camera_exec [Spawn Streamer; Spawn (Capturer "img/a.jpeg");
                        Run 0 Fine; Run 1 Fine] in
  threads s !! 1 = Some (CEnter "img/a.jpeg") ∧
  camera_over (CEnter "img/a.jpeg") = false ∧
  lock s = true.
Proof.
  split; [reflexivity|]. split; [reflexivity|].
  destruct (camera_no_deadlock
              [Spawn Streamer; Spawn (Capturer "img/a.jpeg");
               Run 0 Fine; Run 1 Fine] 1 (CEnter "img/a.jpeg")
              eq_refl eq_refl) as [H|[H _]].
  - reflexivity.
  - exact H.
Defined.

Lemma camera_owner_app (o : option nat) (j1 j2 : list (nat * event)) :
  camera_owner o (j1 ++ j2) = camera_owner o j1 ≫= λ o', camera_owner o' j2.
Proof.
  revert o. induction j1 as [|[i e] j1 IH]; intros o; [done|].
  simpl. destruct e; try apply IH.
  - destruct o; [done|apply IH].
  - case_bool_decide; [apply IH|done].
  - case_bool_decide; [apply IH|done].
  - case_bool_decide; [apply IH|done].
  - case_bool_decide; [apply IH|done].
Qed.

(** What a step journals, by where it starts and ends. *)
Lemma camera_step_effects c l t l' t' evs :
  camera_step c l t = Some (l', t', evs) →
  match camera_holding t, camera_holding t' with
  | false, true => l = false ∧ evs = [AcquireCamera]
  | true, true =>
      evs = [CaptureArray] ∨ evs = [AutofocusCycle] ∨ ∃ p, evs = [CaptureFile p]
  | true, false => evs = [ReleaseCamera]
  | false, false => evs = []
  end.
Proof.
  intros H.
  destruct t, c, l;
    repeat match goal with b : bool |- _ => destruct b end;
    simplify_eq/=; eauto.
Qed.

Lemma perform_journal_fits (a : action client fate) (s : pool camera_thread)
  (ow : option nat) :
  exclusive camera_holding s → journal_fits s ow →
  ∃ ow', journal_fits (perform camera_start camera_step a s) ow'.
Proof.
  intros Hex [Hj Hth]. unfold exclusive, holders in Hex.
  destruct a as [r|i c]; simpl.
  - exists ow. split; [done|]. intros i. rewrite Hth. simpl. split.
    + intros (t & Hi & Ht). exists t. split; [|done].
      by rewrite lookup_app_l by (by eapply lookup_lt_Some).
    + intros (t & Hi & Ht). exists t. split; [|done].
      apply lookup_app_Some in Hi as [Hi|[_ Hi]]; [done|].
      destruct (i - length (threads s)) as [|k]; simplify_eq/=.
      by destruct r.
  - destruct (threads s !! i) as [t|] eqn:Hi; [|by exists ow].
    destruct (camera_step c (lock s) t) as [[[l' t'] evs]|] eqn:Hstep;
      [|by exists ow].
    pose proof (camera_step_effects _ _ _ _ _ _ Hstep) as Hev.
    assert (i < length (threads s)) as Hlt by (by eapply lookup_lt_Some).
    assert (∀ k, k ≠ i →
              (∃ tk, <[i := t']> (threads s) !! k = Some tk ∧
                     camera_holding tk = true) ↔
              (∃ tk, threads s !! k = Some tk ∧ camera_holding tk = true))
      as Hother.
    { intros k Hk. by rewrite list_lookup_insert_ne. }
    assert (camera_holding t = true → ow = Some i) as Hmine.
    { intros Ht. apply Hth. eauto. }
    assert (camera_holding t = false → lock s = false → ow = None) as Hfree.
    { intros Ht Hl. destruct ow as [k|]; [|done].
      destruct (proj1 (Hth k) eq_refl) as (tk & Hk & Htk).
      pose proof (tally_lookup camera_holding _ _ _ Hk Htk) as Hge.
      rewrite Hex, Hl in Hge. lia. }
    unfold journal_fits. simpl. rewrite camera_owner_app, Hj. simpl.
    destruct (camera_holding t) eqn:Ht, (camera_holding t') eqn:Ht'.
    + rewrite (Hmine eq_refl) in *. exists (Some i). split.
      * destruct Hev as [->|[->|[p ->]]]; simpl; by rewrite bool_decide_eq_true_2.
      * intros k. destruct (decide (k = i)) as [->|Hk].
        -- split; [intros _|done]. exists t'.
           by rewrite list_lookup_insert_eq.
        -- rewrite (Hother k Hk), <- Hth. done.
    + rewrite (Hmine eq_refl) in *. subst evs. exists None. split.
      * simpl. by rewrite bool_decide_eq_true_2.
      * intros k. split; [done|]. intros (tk & Hk & Htk).
        destruct (decide (k = i)) as [->|Hne].
        -- rewrite list_lookup_insert_eq in Hk by done. congruence.
        -- rewrite list_lookup_insert_ne in Hk by done.
           assert (Some i = Some k) as [= ->] by (apply Hth; eauto). done.
    + destruct Hev as [Hl ->]. rewrite (Hfree eq_refl Hl) in *.
      exists (Some i). split; [done|].
      intros k. destruct (decide (k = i)) as [->|Hk].
      * split; [intros _|done]. exists t'. by rewrite list_lookup_insert_eq.
      * rewrite (Hother k Hk), <- Hth. split; [congruence|done].
    + subst evs. exists ow. split; [done|].
      intros k. destruct (decide (k = i)) as [->|Hk].
      * rewrite Hth. split.
        -- intros (tk & Hk & Htk). congruence.
        -- intros (tk & Hk & Htk).
           rewrite list_lookup_insert_eq in Hk by done. congruence.
      * by rewrite (Hother k Hk), <- Hth.
Qed.

Lemma exec_journal_fits (sched : list (action client fate))
  (s : pool camera_thread) (ow : option nat) :
  exclusive camera_holding s → journal_fits s ow →
  ∃ ow', journal_fits (exec camera_start camera_step sched s) ow'.
Proof.
  revert s ow. induction sched as [|a rest IH]; intros s ow Hex Hfit; [eauto|].
  simpl. destruct (perform_journal_fits a s ow Hex Hfit) as [ow' Hfit'].
  eapply IH; [|exact Hfit'].
  apply perform_exclusive; [by intros []|apply camera_step_lock|done].
Qed.

(** X24. Camera calls of different threads never interleave: replayed from the
    start, the journal of any run fits the lock. Every acquisition finds
    the lock free, every [capture_array], [autofocus_cycle] and
    [capture_file] is made by the thread that holds the lock at that
    point, every release is made by the holder, and the journal ends with
    the thread that is inside as owner, or with none. *)
Theorem camera_calls_are_serial (sched : list (action client fate)) :
  let s := camera_exec sched in
  ∃ ow, camera_owner None (journal s) = Some ow ∧
        (∀ i, ow = Some i ↔
              ∃ t, threads s !! i = Some t ∧ camera_holding t = true) ∧
        (ow = None ↔ lock s = false).
Proof.
  intros s.
  destruct (exec_journal_fits sched idle_pool None) as [ow [Hj Hth]].
  { done. }
  { split; [done|]. intros i. split; [done|]. by intros (t & Ht & _). }
  fold (camera_exec sched) in Hj, Hth. fold s in Hj, Hth.
  exists ow. split; [done|]. split; [done|].
  pose proof (camera_exec_exclusive sched) as Hex. fold s in Hex.
  unfold exclusive, holders in Hex. split.
  - intros ->. destruct (lock s); [|done].
    destruct (tally_pos_lookup camera_holding (threads s)) as (j & tj & Hj' & Htj);
      [lia|].
    assert (None = Some j) by (apply Hth; eauto). done.
  - intros Hl. destruct ow as [k|]; [|done].
    destruct (proj1 (Hth k) eq_refl) as (tk & Hk & Htk).
    pose proof (tally_lookup camera_holding _ _ _ Hk Htk) as Hge.
    rewrite Hex, Hl in Hge. lia.
Qed.

(** A journal in which a frame grab falls between a capturer's acquisition
    and its release does not fit the lock. *)
Lemma interleaved_journal_rejected_example :
  camera_owner None
    [(1, AcquireCamera); (1, AutofocusCycle); (0, CaptureArray);
     (1, CaptureFile "img/a.jpeg"); (1, ReleaseCamera)] = None.
Proof. reflexivity. Qed.

(** ** The blink sequence *)

Lemma sum_list_with_insert {T : Type} (f : T -> nat) (l : list T)
  (i : nat) (t t' : T) :
  l !! i = Some t →
  sum_list_with f (<[i := t']> l) + f t = sum_list_with f l + f t'.
Proof.
  revert i. induction l as [|a l IH]; intros i Hi; [done|].
  destruct i as [|i]; simpl in Hi.
  - injection Hi as ->. simpl. lia.
  - specialize (IH i Hi). simpl. lia.
Qed.

Lemma perform_blink_pulses (a : action unit unit) (s : pool blink_thread) :
  blink_pulses s → blink_pulses (perform blink_start blink_step a s).
Proof.
  unfold blink_pulses. intros (Hok & Hon & Hoff). destruct a as [[]|i []]; simpl.
  - rewrite !sum_list_with_app. simpl. split; [|lia].
    apply Forall_app. split; [done|]. by repeat constructor.
  - destruct (threads s !! i) as [t|] eqn:Hi; [|done].
    destruct (blink_step () (lock s) t) as [[[l' t'] evs]|] eqn:Hstep; [|done].
    simpl. rewrite !logged_app.
    pose proof (sum_list_with_insert switched_on _ _ _ t' Hi) as Hson.
    pose proof (sum_list_with_insert switched_off _ _ _ t' Hi) as Hsoff.
    assert (blink_thread_ok t) as Ht.
    { eapply Forall_lookup_1; [exact Hok|exact Hi]. }
    assert (blink_thread_ok t' →
            Forall blink_thread_ok (<[i := t']> (threads s))) as Hins.
    { intros Ht'. by apply Forall_insert. }
    destruct t as [|[|n] [|]| |], (lock s); simplify_eq/=;
      unfold logged in *; simpl in *;
      try match goal with
          | H : _ ∧ (_ = true → _) |- _ => destruct H as [Hn Hlit]
          end;
      try (specialize (Hlit eq_refl));
      (split; [apply Hins; simpl; lia|lia]).
Qed.

Lemma blink_exec_pulses (sched : list (action unit unit)) :
  blink_pulses (blink_exec sched).
Proof.
  unfold blink_exec.
  assert (blink_pulses (idle_pool : pool blink_thread)) as H0
    by (split; [constructor|done]).
  revert H0. generalize (idle_pool : pool blink_thread).
  induction sched as [|a rest IH]; intros s Hs; [done|].
  simpl. apply IH. by apply perform_blink_pulses.
Qed.

Lemma switched_on_off (l : list blink_thread) :
  sum_list_with switched_on l = sum_list_with switched_off l + tally is_lit l.
Proof.
  induction l as [|t l IH]; [done|]. unfold tally in *. simpl. rewrite IH.
  destruct t as [|n [|]| |]; simpl; lia.
Qed.

Lemma switched_when_idle (l : list blink_thread) :
  tally blinking l = 0 →
  sum_list_with switched_on l = 6 * tally is_completed l ∧
  sum_list_with switched_off l = 6 * tally is_completed l.
Proof.
  induction l as [|t l IH]; [done|]. unfold tally in *. simpl.
  destruct t; simpl; intros H; try lia; destruct (IH ltac:(lia)); lia.
Qed.

Lemma tally_le {T : Type} (p q : T -> bool) (l : list T) :
  (∀ t, p t = true → q t = true) → tally p l ≤ tally q l.
Proof.
  intros Hpq. induction l as [|t l IH]; [done|]. unfold tally in *. simpl.
  destruct (p t) eqn:E; [rewrite (Hpq t E); lia|destruct (q t); lia].
Qed.

(** X25. The indicator LED under the blink workers, in every interleaving: the
    LED has been switched on as often as off, plus once if a worker is in
    the lit half of a round, which at most one worker is; and whenever no
    sequence is in progress, each has happened six times per completed
    sequence, so the workers leave the LED off. *)
Theorem blink_leaves_led_off (sched : list (action unit unit)) :
  let s := blink_exec sched in
  logged is_ledc_on (journal s)
    = logged is_ledc_off (journal s) + tally is_lit (threads s) ∧
  tally is_lit (threads s) ≤ 1 ∧
  (lock s = false →
     logged is_ledc_on (journal s) = 6 * tally is_completed (threads s) ∧
     logged is_ledc_off (journal s) = 6 * tally is_completed (threads s)).
Proof.
  intros s.
  pose proof (blink_exec_pulses sched) as (_ & Hon & Hoff).
  pose proof (blink_exec_exclusive sched) as Hex.
  fold s in Hon, Hoff, Hex. unfold exclusive, holders in Hex.
  split; [by rewrite Hon, Hoff, switched_on_off|]. split.
  - etrans; [apply (tally_le is_lit blinking)|].
    + by intros [|n [|]| |].
    + rewrite Hex. destruct (lock s); lia.
  - intros Hl. rewrite Hl in Hex. rewrite Hon, Hoff.
    by apply switched_when_idle.
Qed.

(** X26. A blink sequence is bounded: a worker that holds the lock can always
    take its next step, whatever the other workers do; each step brings it
    exactly one step closer to the release, of at most 13 steps; and with
    the last step it has completed and the lock is free. *)
Theorem blink_sequence_bounded (sched : list (action unit unit)) :
  let s := blink_exec sched in
  ∀ i t, threads s !! i = Some t → blinking t = true →
    let s' := perform blink_start blink_step (Run i tt) s in
    lock s = true ∧ 1 ≤ steps_left t ≤ 13 ∧
    ∃ t', threads s' !! i = Some t' ∧
          steps_left t' + 1 = steps_left t ∧
          (steps_left t' = 0 → t' = BCompleted ∧ lock s' = false) ∧
          (1 ≤ steps_left t' → blinking t' = true ∧ lock s' = true).
Proof.
  intros s i t Hi Hb s'.
  pose proof (blink_exec_pulses sched) as (Hok & _).
  pose proof (blink_exec_exclusive sched) as Hex.
  fold s in Hok, Hex. unfold exclusive, holders in Hex.
  assert (blink_thread_ok t) as Ht.
  { eapply Forall_lookup_1; [exact Hok|exact Hi]. }
  assert (lock s = true) as Hl.
  { pose proof (tally_lookup blinking _ _ _ Hi Hb). destruct (lock s); [done|lia]. }
  assert (i < length (threads s)) as Hlt by (by eapply lookup_lt_Some).
  subst s'. unfold perform. rewrite Hi, Hl.
  destruct t as [|n lit| |]; try discriminate Hb.
  destruct Ht as [Hn Hlit]. split; [done|].
  destruct n as [|n], lit; simpl;
    try (specialize (Hlit eq_refl); lia);
    (split; [lia|]); eexists;
    (split; [by apply list_lookup_insert_eq|]); simpl;
    (split; [lia|]); (split; [intros; try lia; done|intros; try lia; done]).
Qed.

Lemma blink_sequence_bounded_witness :
  threads (blink_exec blink_almost_done) !! 0 = Some (BLoop 0 false) ∧
  blinking (BLoop 0 false) = true ∧
  lock (blink_exec blink_almost_done) = true.
Proof.
  split; [reflexivity|]. split; [reflexivity|].
  exact (proj1 (blink_sequence_bounded blink_almost_done 0 (BLoop 0 false)
                  eq_refl eq_refl)).
Defined.

(** ** Waking up from idle mode *)

(** X27. Activity after idle mode clears the idle flag but does not bring the
    status LEDs back: once an iteration of the power monitor has entered
    idle mode (its test [duration > 300] succeeds, the shutdown test does
    not), a press of the capture button followed by an iteration whose test
    [duration > 300] fails leaves both LEDs off and the idle flag
    cleared. *)
Theorem leds_stay_off_after_wake_up
  (now1 t now2 : Q) (ok1 ok2 : bool) (dv : device) :
  power_thread dv = Returned false →
  let i1 := {| current_time := now1; seen := globals dv;
               poweroff_exits_0 := ok1 |} in
  idle_condition i1 = true →
  shutdown_condition i1 = false →
  let dv1 := serve (OpPowerTick now1 ok1) dv in
  let dv2 := serve (OpCaptureButton t) dv1 in
  let i3 := {| current_time := now2; seen := globals dv2;
               poweroff_exits_0 := ok2 |} in
  idle_condition i3 = false →
  let dv3 := serve (OpPowerTick now2 ok2) dv2 in
  idle_forcings (history dv1) = idle_forcings (history dv) + 1 ∧
  power_thread dv1 = Returned true ∧
  power_thread dv3 = Returned false ∧
  led1 (globals dv3) = false ∧ led2 (globals dv3) = false.
Proof.
  intros Hflag i1 Hic Hsc dv1 dv2 i3 Hwake dv3.
  destruct (monitor_tick_spec false i1) as (_ & Hc & Hf & Hend & Hleds).
  rewrite Hsc in Hc. simpl in Hc. rewrite Hic, Hc in Hf. simpl in Hf.
  destruct (Hleds Hf) as [Hl1 Hl2].
  assert (dv1 = {| globals := after (monitor_tick false i1);
                   power_thread := ended (monitor_tick false i1);
                   history := history dv ++ effects (monitor_tick false i1) |})
    as Hdv1.
  { subst dv1. unfold serve. by rewrite Hflag. }
  assert (ended (monitor_tick false i1) = Returned true) as Hret.
  { unfold completed in Hc. destruct (ended (monitor_tick false i1)) as [f|x];
      [|done]. by rewrite (Hend f eq_refl), Hic. }
  assert (power_thread dv1 = Returned true) as Hp1 by (by rewrite Hdv1).
  split; [by rewrite Hdv1; cbn [history]; rewrite idle_forcings_app, Hf|].
  split; [done|].
  assert (power_thread dv2 = Returned true) as Hp2 by (by subst dv2).
  assert (led1 (globals dv2) = false ∧ led2 (globals dv2) = false)
    as [Hl1' Hl2'].
  { subst dv2. simpl. by rewrite Hdv1. }
  destruct (monitor_tick_keeps true i3) as (_ & Hquiet).
  destruct (Hquiet Hwake) as (_ & Hafter & Hended).
  assert (dv3 = {| globals := after (monitor_tick true i3);
                   power_thread := ended (monitor_tick true i3);
                   history := history dv2 ++ effects (monitor_tick true i3) |})
    as ->.
  { subst dv3. unfold serve. by rewrite Hp2. }
  cbn [globals power_thread]. rewrite Hafter, Hended. done.
Qed.

Lemma leds_stay_off_after_wake_up_witness :
  let dv1 := serve (OpPowerTick 400 true) (boot 0) in
  let dv2 := serve (OpCaptureButton 410) dv1 in
  power_thread (boot 0) = Returned false ∧
  idle_condition {| current_time := 400; seen := globals (boot 0);
                    poweroff_exits_0 := true |} = true ∧
  shutdown_condition {| current_time := 400; seen := globals (boot 0);
                        poweroff_exits_0 := true |} = false ∧
  idle_condition {| current_time := 420; seen := globals dv2;
                    poweroff_exits_0 := true |} = false ∧
  led1 (globals (serve (OpPowerTick 420 true) dv2)) = false.
Proof.
  intros dv1 dv2.
  split; [reflexivity|]. split; [reflexivity|]. split; [reflexivity|].
  split; [reflexivity|].
  destruct (leds_stay_off_after_wake_up 400 410 420 true true (boot 0)
              eq_refl eq_refl eq_refl eq_refl) as (_ & _ & _ & H & _).
  exact H.
Defined.
